(** * partition_refs: the filter pipeline over a record table

    Shallow embedding of [bin/partition_refs.py].  The script loads a
    metadata table with pandas, narrows it through a chain of boolean
    masks, optionally re-appends trusted rows and caps each species,
    and finally keeps the rows whose sequence is found in a FASTA file.

    A DataFrame is a list of rows, each carrying its index label; a
    column (a pandas Series) is the list of one attribute over the
    rows; a boolean mask is a [list bool] aligned with the rows.
    Identifier files are taken after parsing, as the [set] of
    stripped, non-empty, non-comment lines the script builds.
    Floating point columns are IEEE binary64 values, modelled with
    [SpecFloat]. *)

From Stdlib Require Import ZArith Lia.
From Stdlib Require Import Floats.SpecFloat.
From stdpp Require Import base option list numbers strings gmap.

Open Scope Z_scope.

(** ** Data model *)

(** One row of the table read by [pandas.read_feather]: typed columns,
    [species] being the only one that holds nulls. *)
Module Row.
Record t := mk {
  seqname : string;
  accession : string;
  version : string;
  is_valid : bool;
  tax_id : string;
  species : option string;
  is_type : bool;
  is_out : bool;
  length : Z;
  ambig_count : Z;
  seqhash : string
}.

#[global] Instance eq_dec : EqDecision t.
Proof. solve_decision. Defined.
End Row.

(** The namespace returned by [build_parser().parse_args()].  A flag
    that takes a file holds the identifier set read from that file,
    [None] when the flag is absent. *)
Module Args.
Record t := mk {
  drop_duplicate_sequences : bool;
  is_valid : bool;
  trusted_taxids : option (gset string);
  do_not_trust : option (gset string);
  inliers : bool;
  is_species : bool;
  is_type : bool;
  min_length : option Z;
  prop_ambig_cutoff : option spec_float;
  species_cap : option Z;
  trusted : option (gset string)
}.
End Args.

(** A frame: rows in table order, each with its index label. *)
Definition frame : Type := list (nat * Row.t).

(** [pandas.read_feather]: the rows get the labels 0, 1, 2, ... *)
Definition read_feather (rows : list Row.t) : frame :=
  zip (seq 0 (List.length rows)) rows.

(** ** Series and mask primitives *)

(** [info[c]]: a column. *)
Definition col {A} (c : Row.t → A) (info : frame) : list A :=
  map (λ ir, c ir.2) info.

(** [s.isin(ids)] *)
Definition isin (ids : gset string) (s : list string) : list bool :=
  map (λ x, bool_decide (x ∈ ids)) s.

(** [~s] and [s1 | s2] on boolean series. *)
Definition inv (s : list bool) : list bool := map negb s.
Definition bor (s1 s2 : list bool) : list bool := zip_with orb s1 s2.

(** [df[mask]]: the rows where the mask holds. *)
Fixpoint getitem {A} (df : list A) (mask : list bool) : list A :=
  match df, mask with
  | x :: df', b :: mask' =>
      if b then x :: getitem df' mask' else getitem df' mask'
  | _, _ => []
  end.

(** [df.loc[mask, 'keep'] = v] on the [keep] column. *)
Definition loc_set (mask : list bool) (v : bool) (keep : list bool) : list bool :=
  zip_with (λ (m k : bool), if m then v else k) mask keep.

(** ** Python truth values, as tested by [if args.x:] *)

Definition truthy_int (o : option Z) : option Z :=
  match o with
  | Some z => if z =? 0 then None else Some z
  | None => None
  end.

Definition float_zero : spec_float := S754_zero false.

Definition truthy_float (o : option spec_float) : option spec_float :=
  match o with
  | Some c => if SFeqb c float_zero then None else Some c
  | None => None
  end.

(** ** binary64 arithmetic on columns *)

Definition prec : Z := 53.
Definition emax : Z := 1024.

(** An int64 cell converted to float64 (round to nearest even). *)
Definition float_of_int (z : Z) : spec_float := binary_normalize prec emax z 0 false.

(** [info['ambig_count'] / info['length']]: element-wise true division;
    a zero divisor gives an infinity or a NaN, no exception. *)
Definition truediv (s1 s2 : list Z) : list spec_float :=
  zip_with (λ x y, SFdiv prec emax (float_of_int x) (float_of_int y)) s1 s2.

(** [s <= c] *)
Definition le_scalar (s : list spec_float) (c : spec_float) : list bool :=
  map (λ x, SFleb x c) s.

(** [s >= m] on an integer column. *)
Definition ge_scalar (s : list Z) (m : Z) : list bool :=
  map (λ x, m <=? x) s.

(** ** OR options (lines 83-95) *)

Definition or_keep (a : Args.t) (info : frame) : list bool :=
  let keep := map (λ _, true) info in
  let keep :=
    if Args.is_valid a
    then loc_set (inv (col Row.is_valid info)) false keep
    else keep in
  match Args.trusted_taxids a with
  | Some ids => loc_set (isin ids (col Row.tax_id info)) true keep
  | None => keep
  end.

Definition or_phase (a : Args.t) (info : frame) : frame :=
  getitem info (or_keep a info).

(** ** AND options (lines 97-123) *)

Definition min_length_filter (min_length : option Z) (info : frame) : frame :=
  match truthy_int min_length with
  | Some m => getitem info (ge_scalar (col Row.length info) m)
  | None => info
  end.

Definition prop_ambig_filter (cutoff : option spec_float) (info : frame) : frame :=
  match truthy_float cutoff with
  | Some c =>
      let prop_ambig := truediv (col Row.ambig_count info) (col Row.length info) in
      getitem info (le_scalar prop_ambig c)
  | None => info
  end.

Definition is_type_filter (on : bool) (info : frame) : frame :=
  if on then getitem info (col Row.is_type info) else info.

Definition isna (s : list (option string)) : list bool :=
  map (λ x, match x with None => true | Some _ => false end) s.

Definition is_species_filter (on : bool) (info : frame) : frame :=
  if on then getitem info (inv (isna (col Row.species info))) else info.

Definition inliers_filter (on : bool) (info : frame) : frame :=
  if on then getitem info (inv (col Row.is_out info)) else info.

Definition do_not_trust_filter (dnt : option (gset string)) (info : frame) : frame :=
  match dnt with
  | Some dnt =>
      let info := getitem info (inv (isin dnt (col Row.tax_id info))) in
      let info := getitem info (inv (isin dnt (col Row.accession info))) in
      let info := getitem info (inv (isin dnt (col Row.version info))) in
      getitem info (inv (isin dnt (col Row.seqname info)))
  | None => info
  end.

Definition and_phase (a : Args.t) (info : frame) : frame :=
  let info := min_length_filter (Args.min_length a) info in
  let info := prop_ambig_filter (Args.prop_ambig_cutoff a) info in
  let info := is_type_filter (Args.is_type a) info in
  let info := is_species_filter (Args.is_species a) info in
  let info := inliers_filter (Args.inliers a) info in
  do_not_trust_filter (Args.do_not_trust a) info.

(** ** Duplicate sequences (lines 125-127) *)

(** [df.duplicated(subset, keep='first')]: a row is a duplicate when an
    earlier row has the same key. *)
Fixpoint duplicated {K} `{EqDecision K} (seen : list K) (keys : list K) : list bool :=
  match keys with
  | [] => []
  | k :: keys' => bool_decide (k ∈ seen) :: duplicated (k :: seen) keys'
  end.

Definition drop_duplicates (info : frame) : frame :=
  getitem info (inv (duplicated [] (col (λ r, (Row.accession r, Row.seqhash r)) info))).

Definition dedup_stage (on : bool) (info : frame) : frame :=
  if on then drop_duplicates info else info.

(** ** Rows with nulls *)

(** After [DataFrame.where] any cell can be null, so the table that
    leaves the trusted step has nullable cells in every column.  (The
    int columns become float columns holding the same numbers.) *)
Module NRow.
Record t := mk {
  seqname : option string;
  accession : option string;
  version : option string;
  is_valid : option bool;
  tax_id : option string;
  species : option string;
  is_type : option bool;
  is_out : option bool;
  length : option Z;
  ambig_count : option Z;
  seqhash : option string
}.

#[global] Instance eq_dec : EqDecision t.
Proof. solve_decision. Defined.

(** A row whose cells are all null. *)
Definition blank : t :=
  mk None None None None None None None None None None None.
End NRow.

Definition nframe : Type := list (nat * NRow.t).

Definition upcast (r : Row.t) : NRow.t :=
  NRow.mk (Some (Row.seqname r)) (Some (Row.accession r)) (Some (Row.version r))
          (Some (Row.is_valid r)) (Some (Row.tax_id r)) (Row.species r)
          (Some (Row.is_type r)) (Some (Row.is_out r)) (Some (Row.length r))
          (Some (Row.ambig_count r)) (Some (Row.seqhash r)).

Definition upcast_row (ir : nat * Row.t) : nat * NRow.t := (ir.1, upcast ir.2).

(** ** Trusted records (lines 75-81 and 129-132) *)

(** [info[version.isin(recs) | accession.isin(recs) | seqname.isin(recs)]] *)
Definition select_trusted (recs : gset string) (info : frame) : frame :=
  getitem info
    (bor (bor (isin recs (col Row.version info))
              (isin recs (col Row.accession info)))
         (isin recs (col Row.seqname info))).

(** [info.reindex_like(trusted)] at one label: the row of [info] that
    carries the label, nulls when there is none. *)
Definition reindex (info : frame) (i : nat) : option Row.t :=
  snd <$> List.find (λ jr : nat * Row.t, bool_decide (jr.1 = i)) info.

(** One cell of [trusted[~trusted.isin(info)]].  [x] is the cell of
    [trusted], [y] the cell of [info] under the same label and column.
    [isin] compares the two with [==], which is false as soon as one
    side is null; indexing by the negated boolean frame is
    [trusted.where(...)], which keeps [x] where the negation holds and
    puts a null elsewhere. *)
Definition where_not_isin {A} `{EqDecision A} (x y : option A) : option A :=
  let eq :=
    match x, y with
    | Some u, Some v => bool_decide (u = v)
    | _, _ => false
    end in
  if negb eq then x else None.

Definition not_isin_row (info : frame) (ir : nat * Row.t) : nat * NRow.t :=
  let o := reindex info ir.1 in
  let r := ir.2 in
  (ir.1,
   NRow.mk
     (where_not_isin (Some (Row.seqname r)) (Row.seqname <$> o))
     (where_not_isin (Some (Row.accession r)) (Row.accession <$> o))
     (where_not_isin (Some (Row.version r)) (Row.version <$> o))
     (where_not_isin (Some (Row.is_valid r)) (Row.is_valid <$> o))
     (where_not_isin (Some (Row.tax_id r)) (Row.tax_id <$> o))
     (where_not_isin (Row.species r) (o ≫= Row.species))
     (where_not_isin (Some (Row.is_type r)) (Row.is_type <$> o))
     (where_not_isin (Some (Row.is_out r)) (Row.is_out <$> o))
     (where_not_isin (Some (Row.length r)) (Row.length <$> o))
     (where_not_isin (Some (Row.ambig_count r)) (Row.ambig_count <$> o))
     (where_not_isin (Some (Row.seqhash r)) (Row.seqhash <$> o))).

(** [info.append(trusted[~trusted.isin(info)])]; labels are kept. *)
Definition append_trusted (trusted : option frame) (info : frame) : nframe :=
  match trusted with
  | Some trusted => map upcast_row info ++ map (not_isin_row info) trusted
  | None => map upcast_row info
  end.

(** ** Species cap (lines 134-136) *)

(** [range(n)] *)
Definition range (n : Z) : list nat := seq 0 (Z.to_nat n).

Definition occurrences (k : string) (l : list string) : nat :=
  List.length (List.filter (λ x, bool_decide (x = k)) l).

(** The mask of [groupby(by).nth(ns)] with [as_index=False]: a row is
    taken when its rank inside its group is one of [ns]; a row with a
    null key belongs to no group and is never taken.  [seen] holds the
    keys of the rows already passed. *)
Fixpoint nth_mask (ns : list nat) (seen : list string)
    (keys : list (option string)) : list bool :=
  match keys with
  | [] => []
  | None :: keys' => false :: nth_mask ns seen keys'
  | Some k :: keys' =>
      bool_decide (occurrences k seen ∈ ns) :: nth_mask ns (k :: seen) keys'
  end.

Definition ncol {A} (c : NRow.t → A) (info : nframe) : list A :=
  map (λ ir, c ir.2) info.

Definition species_cap_stage (species_cap : option Z) (info : nframe) : nframe :=
  match truthy_int species_cap with
  | Some n => getitem info (nth_mask (range n) [] (ncol NRow.species info))
  | None => info
  end.

(** ** The filter pipeline (lines 73-136) *)

Definition filter_stages (a : Args.t) (info : frame) : frame :=
  dedup_stage (Args.drop_duplicate_sequences a) (and_phase a (or_phase a info)).

Definition trusted_stage (a : Args.t) (info0 info : frame) : nframe :=
  append_trusted ((λ recs, select_trusted recs info0) <$> Args.trusted a) info.

Definition pipeline (a : Args.t) (rows : list Row.t) : nframe :=
  let info0 := read_feather rows in
  species_cap_stage (Args.species_cap a)
    (trusted_stage a info0 (filter_stages a info0)).

(** ** Sequences (lines 138-150) *)

(** The loop over [info['seqname'].values]: the state is what has been
    written to [out_fa], as (name, sequence) for each [>name\nsequence\n],
    and the [drop] list.  A null name is not a key of [seqs]. *)
Definition write_step (seqs : gmap string string)
    (st : list (string * string) * list (option string)) (s : option string)
    : list (string * string) * list (option string) :=
  match s ≫= (λ n, pair n <$> seqs !! n) with
  | Some rec => (st.1 ++ [rec], st.2)
  | None => (st.1, st.2 ++ [s])
  end.

Definition write_fasta (seqs : gmap string string) (names : list (option string))
    : list (string * string) * list (option string) :=
  fold_left (write_step seqs) names ([], []).

(** [info[~info['seqname'].isin(set(drop))]] *)
Definition drop_missing (drop : list (option string)) (info : nframe) : nframe :=
  getitem info (inv (map (λ s, bool_decide (s ∈ drop)) (ncol NRow.seqname info))).

(** ** The program *)

(** What a run leaves behind: a diagnostic naming a flag, or the two
    output files. *)
Inductive outcome :=
  | ConfigError (flag : string)
  | Written (out_fa : list (string * string)) (out_info : nframe).

Definition run (a : Args.t) (rows : list Row.t) (seqs : gmap string string)
    : list (string * string) * nframe :=
  let info := pipeline a rows in
  let '(out_fa, drop) := write_fasta seqs (ncol NRow.seqname info) in
  (out_fa, drop_missing drop info).

(** [main] has no statement that raises or exits, and [build_parser]
    gives the numeric flags a [type] only: every run on parsed
    arguments writes its outputs. *)
Definition main (a : Args.t) (rows : list Row.t) (seqs : gmap string string)
    : outcome :=
  let '(out_fa, out_info) := run a rows seqs in
  Written out_fa out_info.

(** * Auxiliary definitions *)

(** [drop_duplicates] on any key, started with some keys already seen. *)
Definition dedup_from {K} `{EqDecision K} {A} (key : A → K)
    (seen : list K) (df : list A) : list A :=
  getitem df (inv (duplicated seen (map key df))).

Definition with_min_length (v : option Z) (a : Args.t) : Args.t :=
  Args.mk (Args.drop_duplicate_sequences a) (Args.is_valid a)
          (Args.trusted_taxids a) (Args.do_not_trust a) (Args.inliers a)
          (Args.is_species a) (Args.is_type a) v (Args.prop_ambig_cutoff a)
          (Args.species_cap a) (Args.trusted a).

(** A float that is not below zero: +0, a positive number, +inf, or NaN. *)
Definition not_negative (x : spec_float) : Prop :=
  match x with
  | S754_zero false | S754_infinity false | S754_nan
  | S754_finite false _ _ => True
  | _ => False
  end.

(** Two rows of length 10, without and with one ambiguous position. *)
Definition clean10 : Row.t :=
  Row.mk "s0" "s0" "s0.1" true "562" (Some "562") false false 10 0 "h0".
Definition ambig10 : Row.t :=
  Row.mk "s1" "s1" "s1.1" true "562" (Some "562") false false 10 1 "h1".

(** The rows of one species group; [None] selects the null species. *)
Definition in_group (g : option string) (ir : nat * NRow.t) : bool :=
  bool_decide (NRow.species ir.2 = g).

Definition with_species_cap (n : Z) : Args.t :=
  Args.mk false false None None false false false None None (Some n) None.

Definition of_species (name : string) (sp : option string) : Row.t :=
  Row.mk name name (name +:+ ".1") true "tx" sp false false 1200 0 ("h" +:+ name).

(** The table of the species-cap example. *)
Definition abcd : list Row.t :=
  [of_species "A" (Some "1"); of_species "B" (Some "1");
   of_species "C" (Some "1"); of_species "D" (Some "2")].

(** The record written for a name, if [seqs] has it. *)
Definition found (seqs : gmap string string) (s : option string)
    : option (string * string) :=
  s ≫= (λ n, pair n <$> seqs !! n).

Definition occurs (x : nat * NRow.t) (info : nframe) : nat :=
  List.length (List.filter (λ y, bool_decide (y = x)) info).

Definition with_trusted (recs : gset string) : Args.t :=
  Args.mk false false None None false false false None None None (Some recs).

Definition float_one : spec_float := SFone prec emax.

(** The valid ranges, in the words of the specification: a min-length
    is not negative, a cutoff lies in [0, 1].  [offending_flag] names
    the flag whose value is out of range. *)
Definition offending_flag (a : Args.t) : option string :=
  match Args.min_length a, Args.prop_ambig_cutoff a with
  | Some m, _ =>
      if m <? 0 then Some "--min-length"%string
      else match Args.prop_ambig_cutoff a with
           | Some c =>
               if SFleb float_zero c && SFleb c float_one then None
               else Some "--prop-ambig-cutoff"%string
           | None => None
           end
  | None, Some c =>
      if SFleb float_zero c && SFleb c float_one then None
      else Some "--prop-ambig-cutoff"%string
  | None, None => None
  end.

Definition invalid_trusted_taxid : Row.t :=
  Row.mk "s2" "s2" "s2.1" false "562" (Some "562") false false 1500 0 "h2".
Definition valid_short : Row.t :=
  Row.mk "s3" "s3" "s3.1" true "1280" (Some "1280") false false 3 0 "h3".
Definition empty_record : Row.t :=
  Row.mk "s4" "s4" "s4.1" true "1280" (Some "1280") false false 0 0 "h4".
Definition no_species : Row.t := of_species "E" None.

(** [--is_valid --trusted-taxids ids --min-length 5], ids holding 562. *)
Definition or_and_args : Args.t :=
  Args.mk false true (Some {["562"%string]}) None false false false
          (Some 5) None None None.

(** [--min-length 1000 --species-cap 1 --trusted recs], recs holding s3:
    the short record s3 comes back at the bottom and the cap, which
    already has s2 for the species, removes it again. *)
Definition capped_trusted_args : Args.t :=
  Args.mk false false None None false false false (Some 1000) None (Some 1)
          (Some {["s3"%string]}).

Definition same_species_short : Row.t :=
  Row.mk "s3" "s3" "s3.1" true "562" (Some "562") false false 3 0 "h3".

(** [--min-length 1000 --trusted recs], recs holding s3. *)
Definition trusted_args : Args.t :=
  Args.mk false false None None false false false (Some 1000) None None
          (Some {["s3"%string]}).

(** [--min-length -5]: out of range, and the run writes both files. *)
Definition negative_min_length_args : Args.t :=
  Args.mk false false None None false false false (Some (-5)) None None None.

(** * The rest of the script *)

(** ** Identifier files (lines 76-77, 89-91, 117-119)

    The three identifier files are read the same way: the lines of the
    file that do not start with [#], stripped, the empty ones left
    out, as a [set].  A line is taken as the file iterator yields it,
    with its newline.  A character is a code point below 256. *)

(** [str.isspace] on one character: tab to carriage return, the four
    separators 28-31, space, next-line (133) and no-break space (160). *)
Definition isspace (c : Ascii.ascii) : bool :=
  let n := Ascii.nat_of_ascii c in
  ((9 <=? n) && (n <=? 13) || (28 <=? n) && (n <=? 32)
   || (n =? 133) || (n =? 160))%nat.

Fixpoint lstrip (s : string) : string :=
  match s with
  | String c s' => if isspace c then lstrip s' else s
  | EmptyString => EmptyString
  end.

Fixpoint rstrip (s : string) : string :=
  match s with
  | String c s' =>
      match rstrip s' with
      | EmptyString => if isspace c then EmptyString else String c EmptyString
      | r => String c r
      end
  | EmptyString => EmptyString
  end.

(** [i.strip()] *)
Definition strip (s : string) : string := rstrip (lstrip s).

(** [i.startswith('#')]; the code of [#] is 35. *)
Definition startswith_hash (i : string) : bool :=
  match i with
  | String c _ => (Ascii.nat_of_ascii c =? 35)%nat
  | EmptyString => false
  end.

Definition read_ids (lines : list string) : gset string :=
  let ids := List.filter (λ i, negb (startswith_hash i)) lines in
  let ids := map strip ids in
  list_to_set (List.filter (λ i, bool_decide (i ≠ EmptyString)) ids).

(** ** The sequence dictionary (line 138)

    [{s.id: s.seq for s in ...}] over the parsed records, as (id,
    sequence) pairs in file order: a later record replaces an earlier
    one with the same id. *)
Definition seqs_of (records : list (string * string)) : gmap string string :=
  fold_left (λ (seqs : gmap string string) rec, <[rec.1 := rec.2]> seqs) records ∅.

(** ** Row predicates

    What a row has to satisfy to pass the OR options and the AND
    options, read off the masks of lines 85-92 and 97-123. *)
Definition or_pred (a : Args.t) (r : Row.t) : bool :=
  match Args.trusted_taxids a with
  | Some ids =>
      bool_decide (Row.tax_id r ∈ ids) || negb (Args.is_valid a) || Row.is_valid r
  | None => negb (Args.is_valid a) || Row.is_valid r
  end.

Definition not_listed (dnt : gset string) (r : Row.t) : bool :=
  negb (bool_decide (Row.tax_id r ∈ dnt))
  && negb (bool_decide (Row.accession r ∈ dnt))
  && negb (bool_decide (Row.version r ∈ dnt))
  && negb (bool_decide (Row.seqname r ∈ dnt)).

Definition and_pred (a : Args.t) (r : Row.t) : bool :=
  match truthy_int (Args.min_length a) with
  | Some m => m <=? Row.length r
  | None => true
  end
  && match truthy_float (Args.prop_ambig_cutoff a) with
     | Some c =>
         SFleb (SFdiv prec emax (float_of_int (Row.ambig_count r))
                                (float_of_int (Row.length r))) c
     | None => true
     end
  && (negb (Args.is_type a) || Row.is_type r)
  && (negb (Args.is_species a) || bool_decide (Row.species r ≠ None))
  && (negb (Args.inliers a) || negb (Row.is_out r))
  && match Args.do_not_trust a with
     | Some dnt => not_listed dnt r
     | None => true
     end.

(** The key of [drop_duplicates]. *)
Definition dup_key (ir : nat * Row.t) : string * string :=
  (Row.accession ir.2, Row.seqhash ir.2).

(** The species cap started with some species already counted. *)
Definition cap_from (n : nat) (seen : list string) (info : nframe) : nframe :=
  getitem info (nth_mask (seq 0 n) seen (ncol NRow.species info)).

(** The record is written: its name is a key of [seqs]. *)
Definition has_sequence (seqs : gmap string string) (ir : nat * NRow.t) : bool :=
  bool_decide (is_Some (found seqs (NRow.seqname ir.2))).

(** No flag at all. *)
Definition no_flags : Args.t :=
  Args.mk false false None None false false false None None None None.

(** A row that is not all null. *)
Definition not_blank (x : nat * NRow.t) : bool := bool_decide (x.2 ≠ NRow.blank).

(** The lines of a small identifier file. *)
Definition newline : string := String (Ascii.ascii_of_nat 10) EmptyString.
Definition id_lines : list string :=
  ["# trusted" +:+ newline; " s3 " +:+ newline; newline; "562" +:+ newline;
   " #x"]%string.

(** [--do_not_trust] with the file above. *)
Definition do_not_trust_args : Args.t :=
  Args.mk false false None (Some (read_ids id_lines)) false false false
          None None None None.

(** [--trusted] with s2 and s3 and [--species-cap 3]. *)
Definition trusted_capped_args : Args.t :=
  Args.mk false false None None false false false (Some 1000) None (Some 3)
          (Some {["s2"; "s3"]}%string).

(** [--prop-ambig-cutoff 0.0]. *)
Definition cutoff_zero_args : Args.t :=
  Args.mk false false None None false false false None (Some float_zero)
          None None.

(** * Properties *)

(** ** Masks *)

Lemma map_fmap {A B} (f : A → B) (l : list A) : map f l = f <$> l.
Proof. reflexivity. Qed.

Section Masks.
Context {A : Type}.
Implicit Types (df : list A) (p : A → bool) (mask : list bool).

Lemma getitem_map p df : getitem df (map p df) = List.filter p df.
Proof. induction df as [|x df IH]; simpl; [done|]. by rewrite IH. Qed.

Lemma getitem_sublist df mask : getitem df mask `sublist_of` df.
Proof.
  revert mask. induction df as [|x df IH]; intros [|[] mask]; simpl;
    try apply sublist_nil_l.
  - by apply sublist_skip.
  - by apply sublist_cons.
Qed.

Lemma elem_of_getitem df mask x : x ∈ getitem df mask → x ∈ df.
Proof. intros H. eapply elem_of_sublist; [done | apply getitem_sublist]. Qed.

Lemma elem_of_getitem_map p df x :
  x ∈ getitem df (map p df) ↔ x ∈ df ∧ p x = true.
Proof. rewrite getitem_map, !list_elem_of_In. apply filter_In. Qed.

Lemma zip_with_map_same {B C D} (f : B → C → D) (g : A → B) (h : A → C) df :
  zip_with f (map g df) (map h df) = map (λ x, f (g x) (h x)) df.
Proof. induction df as [|x df IH]; simpl; [done|]. by rewrite IH. Qed.
End Masks.

(** Every mask of the script is a row predicate mapped over the table. *)
Ltac as_row_predicate :=
  unfold ge_scalar, le_scalar, truediv, loc_set, bor, inv, isin, isna, col, ncol;
  rewrite ?map_map, ?zip_with_map_same, ?map_map.

(** ** The stages only remove rows *)

Lemma or_phase_sublist a info : or_phase a info `sublist_of` info.
Proof. apply getitem_sublist. Qed.

Lemma min_length_filter_sublist m info : min_length_filter m info `sublist_of` info.
Proof. unfold min_length_filter. case_match; [apply getitem_sublist | done]. Qed.

Lemma prop_ambig_filter_sublist c info : prop_ambig_filter c info `sublist_of` info.
Proof. unfold prop_ambig_filter. case_match; [apply getitem_sublist | done]. Qed.

Lemma is_type_filter_sublist on info : is_type_filter on info `sublist_of` info.
Proof. destruct on; [apply getitem_sublist | done]. Qed.

Lemma is_species_filter_sublist on info : is_species_filter on info `sublist_of` info.
Proof. destruct on; [apply getitem_sublist | done]. Qed.

Lemma inliers_filter_sublist on info : inliers_filter on info `sublist_of` info.
Proof. destruct on; [apply getitem_sublist | done]. Qed.

Lemma do_not_trust_filter_sublist dnt info :
  do_not_trust_filter dnt info `sublist_of` info.
Proof.
  destruct dnt as [dnt|]; simpl; [|done].
  repeat (etrans; [apply getitem_sublist|]). done.
Qed.

Lemma and_phase_after_min_length a info :
  and_phase a info `sublist_of` min_length_filter (Args.min_length a) info.
Proof.
  unfold and_phase.
  etrans; [apply do_not_trust_filter_sublist|].
  etrans; [apply inliers_filter_sublist|].
  etrans; [apply is_species_filter_sublist|].
  etrans; [apply is_type_filter_sublist|].
  apply prop_ambig_filter_sublist.
Qed.

Lemma and_phase_sublist a info : and_phase a info `sublist_of` info.
Proof. etrans; [apply and_phase_after_min_length | apply min_length_filter_sublist]. Qed.

Lemma dedup_stage_sublist on info : dedup_stage on info `sublist_of` info.
Proof. destruct on; [apply getitem_sublist | done]. Qed.

Lemma filter_stages_sublist a info : filter_stages a info `sublist_of` info.
Proof.
  unfold filter_stages.
  etrans; [apply dedup_stage_sublist|].
  etrans; [apply and_phase_sublist | apply or_phase_sublist].
Qed.

(** ** OR options, then AND options *)

Lemma or_phase_trusted_taxid a info ids ir :
  Args.trusted_taxids a = Some ids →
  ir ∈ info → Row.tax_id ir.2 ∈ ids → ir ∈ or_phase a info.
Proof.
  intros Hids Hin Htax. unfold or_phase, or_keep. rewrite Hids.
  destruct (Args.is_valid a); as_row_predicate;
    apply elem_of_getitem_map; (split; [done|]);
    by rewrite bool_decide_eq_true_2.
Qed.

Lemma min_length_filter_short m info ir :
  0 ≤ Row.length ir.2 < m → ir ∉ min_length_filter (Some m) info.
Proof.
  intros Hlen Hin. unfold min_length_filter, truthy_int in Hin.
  destruct (Z.eqb_spec m 0) as [->|_]; [lia|].
  revert Hin. as_row_predicate. rewrite elem_of_getitem_map.
  intros [_ Hle]. apply Z.leb_le in Hle. lia.
Qed.

(** C1.  With a trusted-taxid set supplied, a row with is_valid = false
    whose tax_id is in the set is still in the table after the OR
    options (its keep cell is forced back to true, so the row drop
    leaves it); with a min-length supplied, a row with is_valid = true
    whose length is below it is not in the table after the AND options.
    Lengths are non-negative, as the data model has them. *)
Theorem or_and_composition (a : Args.t) (info : frame) (ids : gset string)
    (m : Z) (ir jr : nat * Row.t) :
  Args.trusted_taxids a = Some ids →
  Args.min_length a = Some m →
  ir ∈ info → Row.is_valid ir.2 = false → Row.tax_id ir.2 ∈ ids →
  Row.is_valid jr.2 = true → 0 ≤ Row.length jr.2 < m →
  ir ∈ or_phase a info ∧ jr ∉ and_phase a (or_phase a info).
Proof.
  intros Hids Hmin Hin _ Htax _ Hlen. split.
  - by eapply or_phase_trusted_taxid.
  - intros Hj. eapply min_length_filter_short; [exact Hlen|].
    rewrite <- Hmin. eapply elem_of_sublist; [exact Hj|].
    apply and_phase_after_min_length.
Qed.

(** ** The min-length gate *)

(** C10.  [--min-length 0] is the same run as no [--min-length]: the
    value 0 is false for [if args.min_length:], so the length mask is
    never built and no row, of length 0 or other, is removed by it. *)
Theorem min_length_zero_is_disabled (a : Args.t) (rows : list Row.t)
    (seqs : gmap string string) (info : frame) :
  main (with_min_length (Some 0) a) rows seqs
    = main (with_min_length None a) rows seqs
  ∧ min_length_filter (Some 0) info = info.
Proof. split; reflexivity. Qed.

(** ** The ambiguity cutoff *)

Lemma binary_round_aux_not_negative mx ex lx :
  not_negative (binary_round_aux prec emax false mx ex lx).
Proof.
  unfold binary_round_aux.
  destruct (shr_fexp _ _ _ _ _) as [mrs' e'].
  destruct (shr_fexp _ _ _ _ _) as [mrs'' e''].
  destruct (shr_m mrs''); simpl; try done.
  by case (Z.leb _ _).
Qed.

Lemma float_of_int_not_negative z : 0 ≤ z → not_negative (float_of_int z).
Proof.
  intros Hz. destruct z as [|p|p]; [done| |lia].
  unfold float_of_int, binary_normalize, binary_round.
  destruct (shl_align _ _ _) as [mz ez]. apply binary_round_aux_not_negative.
Qed.

Lemma SFdiv_not_negative x y :
  not_negative x → not_negative y → not_negative (SFdiv prec emax x y).
Proof.
  destruct x as [[]|[]| |[] mx ex], y as [[]|[]| |[] my ey]; simpl; try done.
  intros _ _. destruct (SFdiv_core_binary _ _ _ _ _ _) as [[mz ez] lz].
  apply binary_round_aux_not_negative.
Qed.

(** A zero divisor gives NaN (0/0) or +inf (a positive count), never a
    number. *)
Lemma truediv_by_zero z :
  0 ≤ z →
  let q := SFdiv prec emax (float_of_int z) (float_of_int 0) in
  (z = 0 → q = S754_nan) ∧ (q = S754_nan ∨ q = S754_infinity false).
Proof.
  intros Hz q. split; [by intros -> |].
  pose proof (float_of_int_not_negative z Hz) as Hnn. subst q.
  change (float_of_int 0) with (S754_zero false).
  destruct (float_of_int z) as [[]|[]| |[] mx ex]; simpl in *; auto; done.
Qed.

Lemma SFleb_nan_l c : SFleb S754_nan c = false.
Proof. by destruct c. Qed.

Lemma SFleb_inf_l c : SFleb (S754_infinity false) c = true → c = S754_infinity false.
Proof. by destruct c as [[]|[]| |[] m e]. Qed.

Lemma prop_ambig_filter_spec c info ir :
  truthy_float (Some c) = Some c →
  ir ∈ prop_ambig_filter (Some c) info ↔
  ir ∈ info ∧
  SFleb (SFdiv prec emax (float_of_int (Row.ambig_count ir.2))
                         (float_of_int (Row.length ir.2))) c = true.
Proof.
  intros Hc. unfold prop_ambig_filter. rewrite Hc.
  as_row_predicate.
  apply (elem_of_getitem_map (λ x : nat * Row.t,
    SFleb (SFdiv prec emax (float_of_int (Row.ambig_count x.2))
                           (float_of_int (Row.length x.2))) c)).
Qed.

(** When the cutoff stage runs (a cutoff is given and is true for
    [if args.prop_ambig_cutoff:]), the stage is a total function of the
    table: dividing by a zero length gives NaN or +inf instead of
    raising, and a row of length 0 is never in the result.  The row
    obeys the data model (0 <= ambig_count <= length), or else the
    cutoff is not +inf. *)
Lemma zero_length_excluded (c : spec_float) (info : frame) (ir : nat * Row.t) :
  truthy_float (Some c) = Some c →
  Row.length ir.2 = 0 →
  0 ≤ Row.ambig_count ir.2 →
  Row.ambig_count ir.2 ≤ Row.length ir.2 ∨ c ≠ S754_infinity false →
  ir ∉ prop_ambig_filter (Some c) info.
Proof.
  intros Hc Hlen Hamb Hinv Hin.
  apply prop_ambig_filter_spec in Hin as [_ Hle]; [|done].
  rewrite Hlen in Hle, Hinv.
  destruct (truediv_by_zero _ Hamb) as [Hzero [Hq|Hq]]; simpl in *.
  - rewrite Hq, SFleb_nan_l in Hle. done.
  - destruct Hinv as [Hinv|Hinf].
    + rewrite Hzero in Hq by lia. done.
    + rewrite Hq in Hle. by apply SFleb_inf_l in Hle.
Qed.

(** C4.  At [--prop-ambig-cutoff 0.0] the comparison [prop_ambig <= 0.0]
    would pass the row with ambig_count = 0 and reject the row with
    ambig_count = 1, but 0.0 is false for [if args.prop_ambig_cutoff:],
    the stage is skipped and both rows stay. *)
Theorem cutoff_zero_skips_filter :
  let info := read_feather [clean10; ambig10] in
  le_scalar (truediv (col Row.ambig_count info) (col Row.length info)) float_zero
    = [true; false]
  ∧ prop_ambig_filter (Some float_zero) info = info.
Proof. split; reflexivity. Qed.

(** ** Duplicate sequences *)

Section Dedup.
Context {K : Type} `{EqDecision K} {A : Type} (key : A → K).

Lemma duplicated_proper (s1 s2 keys : list K) :
  (∀ x, x ∈ s1 ↔ x ∈ s2) → duplicated s1 keys = duplicated s2 keys.
Proof.
  revert s1 s2. induction keys as [|k keys IH]; intros s1 s2 Hs; simpl; [done|].
  f_equal.
  - apply bool_decide_ext, Hs.
  - apply IH. intros x. by rewrite !elem_of_cons, Hs.
Qed.

Lemma dedup_from_cons seen x df :
  dedup_from key seen (x :: df) =
    if bool_decide (key x ∈ seen) then dedup_from key seen df
    else x :: dedup_from key (key x :: seen) df.
Proof.
  unfold dedup_from. simpl. case_bool_decide as Hk; simpl; [|done].
  f_equal. f_equal. apply duplicated_proper. intros y.
  rewrite elem_of_cons. split; [by intros [->|?] | by right].
Qed.

Lemma dedup_from_idem seen df :
  dedup_from key seen (dedup_from key seen df) = dedup_from key seen df.
Proof.
  revert seen. induction df as [|x df IH]; intros seen; [done|].
  rewrite dedup_from_cons. case_bool_decide as Hk; [apply IH|].
  rewrite dedup_from_cons, bool_decide_eq_false_2 by done.
  by rewrite IH.
Qed.
End Dedup.

(** C8.  Dropping duplicates (first row of each accession and seqhash
    pair, in table order) from a table that already went through it
    removes nothing more. *)
Theorem drop_duplicates_idempotent (info : frame) :
  drop_duplicates (drop_duplicates info) = drop_duplicates info.
Proof.
  apply (dedup_from_idem (λ ir : nat * Row.t, (Row.accession ir.2, Row.seqhash ir.2))).
Qed.

(** ** Species cap *)

Lemma occurrences_cons k x seen :
  occurrences k (x :: seen)
    = (if bool_decide (x = k) then S (occurrences k seen) else occurrences k seen).
Proof. unfold occurrences. simpl. by case_bool_decide. Qed.

Lemma nth_mask_group (n : nat) (seen : list string) (info : nframe) (s : string) :
  List.filter (in_group (Some s))
              (getitem info (nth_mask (seq 0 n) seen (ncol NRow.species info)))
    = take (n - occurrences s seen) (List.filter (in_group (Some s)) info).
Proof.
  revert seen. induction info as [|[i r] info IH]; intros seen; simpl.
  { by rewrite take_nil. }
  unfold in_group at 2. simpl.
  destruct (NRow.species r) as [k|] eqn:Hsp; simpl.
  - case_bool_decide as Hk; simpl.
    + (* the row is taken *)
      apply elem_of_seq in Hk. unfold in_group at 1. simpl. rewrite Hsp.
      rewrite IH, occurrences_cons.
      case_bool_decide as Hs; simplify_eq.
      * rewrite bool_decide_eq_true_2 by done.
        replace (n - occurrences s seen)%nat
          with (S (n - S (occurrences s seen))) by lia.
        done.
      * rewrite bool_decide_eq_false_2 by congruence. done.
    + rewrite elem_of_seq in Hk.
      rewrite IH, occurrences_cons.
      case_bool_decide as Hs; simplify_eq.
      * rewrite bool_decide_eq_true_2 by done.
        replace (n - S (occurrences s seen))%nat with 0%nat by lia.
        replace (n - occurrences s seen)%nat with 0%nat by lia.
        done.
      * rewrite bool_decide_eq_false_2 by congruence. done.
  - rewrite IH. done.
Qed.

Lemma nth_mask_null (ns : list nat) (seen : list string) (info : nframe) :
  List.filter (in_group None)
              (getitem info (nth_mask ns seen (ncol NRow.species info))) = [].
Proof.
  revert seen. induction info as [|[i r] info IH]; intros seen; simpl; [done|].
  destruct (NRow.species r) as [k|] eqn:Hsp; simpl; [|apply IH].
  case_bool_decide; simpl; [|apply IH].
  unfold in_group at 1. simpl. rewrite Hsp. simpl. apply IH.
Qed.

(** C3, as the code has it.  With [--species-cap n], n >= 1, rows are
    grouped by species; the rows of a null species belong to no group
    and are removed; of each group exactly the first n rows in table
    order stay (a group of at most n rows stays whole), and the rows
    that stay keep their order.  A cap of 0 is false for
    [if args.species_cap:] and leaves every table as it is.  For A, B,
    C of species 1 and D of species 2 with a cap of 2 the result is A,
    B, D. *)
Theorem species_cap_first_n :
  (∀ (n : Z) (info : nframe), 0 < n →
     let out := species_cap_stage (Some n) info in
     out `sublist_of` info ∧
     List.filter (in_group None) out = [] ∧
     ∀ s : string,
       let group := List.filter (in_group (Some s)) in
       group out = take (Z.to_nat n) (group info) ∧
       ((List.length (group info) ≤ Z.to_nat n)%nat → group out = group info))
  ∧ (∀ info : nframe, species_cap_stage (Some 0) info = info)
  ∧ pipeline (with_species_cap 2) abcd
      = [(0%nat, upcast (of_species "A" (Some "1")));
         (1%nat, upcast (of_species "B" (Some "1")));
         (3%nat, upcast (of_species "D" (Some "2")))].
Proof.
  split; [|split; reflexivity].
  intros n info Hn out. subst out. unfold species_cap_stage, truthy_int, range.
  destruct (Z.eqb_spec n 0) as [->|_]; [lia|].
  split; [apply getitem_sublist|]. split; [apply nth_mask_null|].
  intros s.
  assert (List.filter (in_group (Some s))
            (getitem info (nth_mask (seq 0 (Z.to_nat n)) [] (ncol NRow.species info)))
          = take (Z.to_nat n) (List.filter (in_group (Some s)) info)) as Heq.
  { rewrite nth_mask_group. f_equal. unfold occurrences. simpl. lia. }
  split; [done|]. intros Hlen. rewrite Heq. by apply take_ge.
Qed.

(** ** Sequences *)

Lemma write_fasta_fold seqs names st :
  fold_left (write_step seqs) names st
    = (st.1 ++ omap (found seqs) names,
       st.2 ++ List.filter (λ s, bool_decide (found seqs s = None)) names).
Proof.
  revert st. induction names as [|s names IH]; intros [fa dr]; simpl.
  { by rewrite !app_nil_r. }
  rewrite IH. unfold write_step. fold (found seqs s).
  destruct (found seqs s) as [rec|] eqn:Hf; simpl.
  - by rewrite <- app_assoc.
  - by rewrite <- app_assoc.
Qed.

Lemma found_name seqs s rec : found seqs s = Some rec → s = Some rec.1.
Proof.
  destruct s as [n|]; simpl; [|done].
  destruct (seqs !! n); simpl; [|done]. by intros [= <-].
Qed.

Lemma run_spec a rows seqs :
  let info := pipeline a rows in
  run a rows seqs =
    (omap (found seqs) (ncol NRow.seqname info),
     List.filter (λ ir, bool_decide (is_Some (found seqs (NRow.seqname ir.2)))) info).
Proof.
  intros info. unfold run. fold info. unfold write_fasta.
  rewrite write_fasta_fold. simpl. f_equal.
  unfold drop_missing. as_row_predicate. rewrite getitem_map.
  apply filter_ext_in. intros ir Hin.
  case_bool_decide as Hd; case_bool_decide as Hs; simpl; try done.
  - (* a name in [drop] was not found *)
    apply list_elem_of_In, filter_In in Hd as [_ Hd].
    apply bool_decide_eq_true_1 in Hd. rewrite Hd in Hs. by destruct Hs.
  - exfalso. apply Hd. apply list_elem_of_In, filter_In. split.
    + unfold ncol. apply in_map_iff. by exists ir.
    + apply bool_decide_eq_true_2. by apply eq_None_not_Some.
Qed.

Lemma written_names seqs (info : nframe) :
  ncol NRow.seqname
    (List.filter (λ ir, bool_decide (is_Some (found seqs (NRow.seqname ir.2)))) info)
  = map (λ rec, Some rec.1) (omap (found seqs) (ncol NRow.seqname info)).
Proof.
  induction info as [|[i r] info IH]; simpl; [done|].
  destruct (found seqs (NRow.seqname r)) as [rec|] eqn:Hf; simpl.
  - f_equal; [by eapply found_name | apply IH].
  - apply IH.
Qed.

Lemma written_in_seqs seqs (names : list (option string)) rec :
  rec ∈ omap (found seqs) names → seqs !! rec.1 = Some rec.2.
Proof.
  rewrite list_elem_of_omap. intros ([n|] & _ & Hf); simpl in Hf; [|done].
  destruct (seqs !! n) eqn:Hn; simpl in Hf; [|done].
  by injection Hf as <-.
Qed.

(** C6.  Every run writes both files, and the seqname column of the
    metadata output is, row for row, the list of record names written
    to the sequence output: the two hold the same set of names, and a
    name that is not a key of the name-to-sequence mapping is in
    neither. *)
Theorem sequence_metadata_consistency (a : Args.t) (rows : list Row.t)
    (seqs : gmap string string) :
  match main a rows seqs with
  | Written out_fa out_info =>
      ncol NRow.seqname out_info = map (λ rec, Some rec.1) out_fa ∧
      (∀ n, (Some n ∈ ncol NRow.seqname out_info) ↔ (n ∈ map fst out_fa)) ∧
      (∀ n, seqs !! n = None →
            (Some n ∉ ncol NRow.seqname out_info) ∧ (n ∉ map fst out_fa))
  | ConfigError _ => False
  end.
Proof.
  unfold main. rewrite run_spec.
  set (info := pipeline a rows).
  set (out_fa := omap (found seqs) (ncol NRow.seqname info)).
  pose proof (written_names seqs info) as Hnames. fold out_fa in Hnames.
  assert (∀ n, n ∈ map fst out_fa → is_Some (seqs !! n)) as Hkeys.
  { intros n Hn. rewrite map_fmap in Hn.
    apply list_elem_of_fmap in Hn as (rec & -> & Hrec).
    apply written_in_seqs in Hrec. by rewrite Hrec. }
  assert (∀ n, Some n ∈ map (λ rec : string * string, Some rec.1) out_fa
               ↔ n ∈ map fst out_fa) as Hsame.
  { intros n. rewrite !map_fmap, !list_elem_of_fmap. split.
    - intros (rec & [= ->] & Hrec). by exists rec.
    - intros (rec & -> & Hrec). by exists rec. }
  split; [done|]. rewrite Hnames. split; [done|].
  intros n Hnone.
  assert (n ∉ map fst out_fa) as Hout.
  { intros Hn. apply Hkeys in Hn. rewrite Hnone in Hn. by destruct Hn. }
  split; [|done]. by rewrite Hsame.
Qed.

(** ** Index labels *)

Lemma read_feather_labels rows : NoDup (read_feather rows).*1.
Proof. unfold read_feather. rewrite fst_zip by (by rewrite length_seq). apply NoDup_seq. Qed.

Lemma sublist_labels (info1 info2 : frame) :
  info1 `sublist_of` info2 → NoDup info2.*1 → NoDup info1.*1.
Proof. intros Hsub Hnd. eapply sublist_NoDup; [done | by apply fmap_sublist]. Qed.

Lemma label_unique (info : frame) i r r' :
  NoDup info.*1 → (i, r) ∈ info → (i, r') ∈ info → r = r'.
Proof.
  induction info as [|[j q] info IH]; simpl; intros Hnd H1 H2.
  { by apply elem_of_nil in H1. }
  apply NoDup_cons in Hnd as [Hj Hnd].
  apply elem_of_cons in H1 as [E1|H1], H2 as [E2|H2].
  - congruence.
  - exfalso. apply Hj. apply list_elem_of_fmap. exists (i, r'). split; [|done].
    simpl. congruence.
  - exfalso. apply Hj. apply list_elem_of_fmap. exists (i, r). split; [|done].
    simpl. congruence.
  - by apply IH.
Qed.

Lemma reindex_Some (info : frame) i r :
  NoDup info.*1 → (i, r) ∈ info → reindex info i = Some r.
Proof.
  unfold reindex. induction info as [|[j q] info IH]; simpl; intros Hnd Hin.
  { by apply elem_of_nil in Hin. }
  apply NoDup_cons in Hnd as [Hj Hnd].
  apply elem_of_cons in Hin as [E|Hin].
  - injection E as -> ->. by rewrite bool_decide_eq_true_2.
  - rewrite bool_decide_eq_false_2; [by apply IH|].
    intros ->. apply Hj. apply list_elem_of_fmap. by exists (i, r).
Qed.

Lemma reindex_None (info : frame) i : i ∉ info.*1 → reindex info i = None.
Proof.
  unfold reindex. induction info as [|[j q] info IH]; simpl; intros Hi; [done|].
  apply not_elem_of_cons in Hi as [Hne Hi].
  rewrite bool_decide_eq_false_2 by done. by apply IH.
Qed.

(** ** Trusted records *)

Lemma where_not_isin_same {A} `{EqDecision A} (x : A) :
  where_not_isin (Some x) (Some x) = None.
Proof. unfold where_not_isin. by rewrite bool_decide_eq_true_2. Qed.

Lemma where_not_isin_absent {A} `{EqDecision A} (x : option A) :
  where_not_isin x None = x.
Proof. by destruct x. Qed.

(** A trusted row whose label is still in [info] comes out with every
    cell null; one whose label is gone comes out as it was. *)
Lemma not_isin_row_present (info : frame) i r :
  reindex info i = Some r → not_isin_row info (i, r) = (i, NRow.blank).
Proof.
  intros Hre. unfold not_isin_row. simpl. rewrite Hre. simpl.
  rewrite !where_not_isin_same. f_equal. unfold NRow.blank. f_equal.
  unfold where_not_isin. destruct (Row.species r); [|done].
  by rewrite bool_decide_eq_true_2.
Qed.

Lemma not_isin_row_absent (info : frame) ir :
  reindex info ir.1 = None → not_isin_row info ir = upcast_row ir.
Proof.
  intros Hre. unfold not_isin_row. rewrite Hre. simpl.
  by rewrite !where_not_isin_absent.
Qed.

Lemma select_trusted_spec recs (info : frame) ir :
  ir ∈ select_trusted recs info ↔
  ir ∈ info ∧ (Row.version ir.2 ∈ recs ∨ Row.accession ir.2 ∈ recs
               ∨ Row.seqname ir.2 ∈ recs).
Proof.
  unfold select_trusted. as_row_predicate.
  rewrite (elem_of_getitem_map (λ x : nat * Row.t,
    bool_decide (Row.version x.2 ∈ recs) || bool_decide (Row.accession x.2 ∈ recs)
    || bool_decide (Row.seqname x.2 ∈ recs))).
  rewrite !orb_true_iff, !bool_decide_eq_true. tauto.
Qed.

Lemma upcast_inj : Inj (=) (=) upcast.
Proof.
  intros [] []. unfold upcast. simpl. intros [=]. by simplify_eq.
Qed.

Lemma upcast_row_inj : Inj (=) (=) upcast_row.
Proof.
  intros [i r] [j q] H.
  pose proof (f_equal fst H) as Hi. pose proof (f_equal snd H) as Hu.
  simpl in Hi, Hu. subst j. f_equal. by apply upcast_inj.
Qed.

Lemma upcast_not_blank r : upcast r ≠ NRow.blank.
Proof. done. Qed.

(** ** Counting rows *)

Lemma occurs_app x info1 info2 :
  occurs x (info1 ++ info2) = (occurs x info1 + occurs x info2)%nat.
Proof. unfold occurs. by rewrite List.filter_app, length_app. Qed.

Lemma occurs_absent x info : x ∉ info → occurs x info = 0%nat.
Proof.
  unfold occurs. induction info as [|y info IH]; simpl; intros Hx; [done|].
  apply not_elem_of_cons in Hx as [Hne Hx].
  rewrite bool_decide_eq_false_2 by done. by apply IH.
Qed.

Lemma occurs_NoDup x info : NoDup info → x ∈ info → occurs x info = 1%nat.
Proof.
  induction info as [|y info IH]; intros Hnd Hx.
  { by apply elem_of_nil in Hx. }
  apply NoDup_cons in Hnd as [Hy Hnd]. unfold occurs. simpl.
  apply elem_of_cons in Hx as [->|Hx].
  - rewrite bool_decide_eq_true_2 by done. simpl.
    f_equal. by apply occurs_absent.
  - rewrite bool_decide_eq_false_2 by (by intros ->). by apply IH.
Qed.

Lemma NoDup_labels_rows {B} (l : list (nat * B)) : NoDup l.*1 → NoDup l.
Proof. apply NoDup_fmap_1. Qed.

Lemma not_isin_row_labels (info t : frame) : (map (not_isin_row info) t).*1 = t.*1.
Proof. induction t as [|x t IH]; [done|]. simpl. f_equal. exact IH. Qed.

Section TrustedStage.
Variables (a : Args.t) (rows : list Row.t) (recs : gset string).
Hypothesis Htrusted : Args.trusted a = Some recs.

Local Abbreviation info0 := (read_feather rows).
Local Abbreviation info := (filter_stages a (read_feather rows)).
Local Abbreviation trusted := (select_trusted recs (read_feather rows)).

Lemma trusted_stage_eq :
  trusted_stage a info0 info
    = map upcast_row info ++ map (not_isin_row info) trusted.
Proof. unfold trusted_stage. by rewrite Htrusted. Qed.

Lemma info_labels : NoDup info.*1.
Proof.
  eapply sublist_labels; [apply filter_stages_sublist | apply read_feather_labels].
Qed.

Lemma trusted_labels : NoDup trusted.*1.
Proof.
  eapply sublist_labels; [apply getitem_sublist | apply read_feather_labels].
Qed.

Lemma info_in_info0 ir : ir ∈ info → ir ∈ info0.
Proof. intros H. eapply elem_of_sublist; [done | apply filter_stages_sublist]. Qed.

Lemma trusted_in_info0 ir : ir ∈ trusted → ir ∈ info0.
Proof. apply elem_of_getitem. Qed.

Lemma same_label ir jr : ir ∈ info0 → jr ∈ info0 → jr.1 = ir.1 → jr = ir.
Proof.
  destruct ir as [i r], jr as [j q]. simpl. intros Hi Hj ->.
  f_equal. eapply label_unique; [apply read_feather_labels | done | done].
Qed.

Lemma kept_part_NoDup : NoDup (map upcast_row info).
Proof.
  rewrite map_fmap. apply NoDup_fmap_2; [apply upcast_row_inj|].
  apply NoDup_labels_rows, info_labels.
Qed.

Lemma appended_part_NoDup : NoDup (map (not_isin_row info) trusted).
Proof.
  apply NoDup_labels_rows. rewrite not_isin_row_labels. apply trusted_labels.
Qed.

(** A trusted row that survived the filters is not appended again:
    its appended copy is blank. *)
Lemma survivor_appended_blank ir :
  ir ∈ trusted → ir ∈ info → not_isin_row info ir = (ir.1, NRow.blank).
Proof.
  destruct ir as [i r]. intros _ Hin. apply not_isin_row_present.
  apply reindex_Some; [apply info_labels | done].
Qed.

(** A trusted row that the filters removed is appended as it was. *)
Lemma excluded_appended_whole ir :
  ir ∈ trusted → ir ∉ info → not_isin_row info ir = upcast_row ir.
Proof.
  intros Htr Hout. apply not_isin_row_absent, reindex_None.
  intros Hlab. apply list_elem_of_fmap in Hlab as (jr & Hl & Hj).
  apply Hout. rewrite <- (same_label ir jr); auto using info_in_info0, trusted_in_info0.
Qed.

Lemma trusted_once ir :
  ir ∈ trusted → occurs (upcast_row ir) (trusted_stage a info0 info) = 1%nat.
Proof.
  intros Htr. rewrite trusted_stage_eq, occurs_app.
  destruct (decide (ir ∈ info)) as [Hin|Hout].
  - rewrite (occurs_NoDup _ _ kept_part_NoDup), occurs_absent; [done| |].
    + rewrite map_fmap. intros Hx.
      apply list_elem_of_fmap in Hx as (jr & Hx & Hj).
      assert (jr = ir) as ->.
      { apply same_label; auto using info_in_info0, trusted_in_info0.
        by apply (f_equal fst) in Hx. }
      rewrite survivor_appended_blank in Hx by done.
      apply (f_equal snd) in Hx. simpl in Hx. by apply upcast_not_blank in Hx.
    + rewrite map_fmap. apply list_elem_of_fmap. by exists ir.
  - rewrite occurs_absent, (occurs_NoDup _ _ appended_part_NoDup); [done| |].
    + rewrite map_fmap. apply list_elem_of_fmap. exists ir.
      by rewrite excluded_appended_whole.
    + rewrite map_fmap. intros Hx.
      apply list_elem_of_fmap in Hx as (jr & Hx & Hj).
      apply upcast_row_inj in Hx as ->. done.
Qed.

Lemma excluded_at_bottom ir :
  ir ∈ trusted → ir ∉ info →
  ∃ pre post,
    trusted_stage a info0 info
      = map upcast_row info ++ pre ++ upcast_row ir :: post.
Proof.
  intros Htr Hout.
  assert (upcast_row ir ∈ map (not_isin_row info) trusted) as Hx.
  { rewrite map_fmap. apply list_elem_of_fmap. exists ir.
    by rewrite excluded_appended_whole. }
  apply list_elem_of_split in Hx as (pre & post & Hx).
  exists pre, post. by rewrite trusted_stage_eq, Hx.
Qed.
End TrustedStage.

(** ** What the pipeline returns *)


(** With [--trusted], a row of the result is a loaded row or a blank
    row that stands for a trusted row. *)
Lemma pipeline_rows (a : Args.t) (rows : list Row.t) (x : nat * NRow.t) :
  x ∈ pipeline a rows →
  x ∈ map upcast_row (read_feather rows) ∨ x.2 = NRow.blank.
Proof.
  unfold pipeline. intros Hx.
  assert (x ∈ trusted_stage a (read_feather rows)
                 (filter_stages a (read_feather rows))) as Hts.
  { revert Hx. unfold species_cap_stage. case_match; [apply elem_of_getitem | done]. }
  clear Hx. unfold trusted_stage in Hts.
  destruct (Args.trusted a) as [recs|] eqn:Htrusted; simpl in Hts.
  - apply elem_of_app in Hts as [Hk|Happ].
    + left. rewrite map_fmap in *.
      apply list_elem_of_fmap in Hk as (ir & -> & Hir).
      apply list_elem_of_fmap. exists ir. split; [done|].
      by eapply info_in_info0.
    + rewrite map_fmap in Happ.
      apply list_elem_of_fmap in Happ as (ir & -> & Hir).
      destruct (decide (ir ∈ filter_stages a (read_feather rows))) as [Hin|Hout].
      * right. by rewrite (survivor_appended_blank a rows recs).
      * left. rewrite (excluded_appended_whole a rows recs) by done.
        rewrite map_fmap. apply list_elem_of_fmap. exists ir. split; [done|].
        by eapply trusted_in_info0.
  - left. rewrite map_fmap in *.
    apply list_elem_of_fmap in Hts as (ir & -> & Hir).
    apply list_elem_of_fmap. exists ir. split; [done|].
    by eapply info_in_info0.
Qed.

(** C7.  The run [--trusted] with the one name A on the table of the
    one record A: no filter is on, A survives, and the trusted step
    still appends a row for it, with every cell null.  The table that
    leaves the pipeline has two rows and the second is not a row of
    the loaded table. *)
Theorem trusted_survivor_leaves_blank_row :
  let rec_a := of_species "A" (Some "1") in
  let out := pipeline (with_trusted {["A"]}) [rec_a] in
  out = [(0%nat, upcast rec_a); (0%nat, NRow.blank)] ∧
  (0%nat, NRow.blank) ∉ map upcast_row (read_feather [rec_a]).
Proof.
  split; [reflexivity|].
  intros H. apply list_elem_of_In in H. simpl in H.
  destruct H as [H|[]]. discriminate H.
Qed.

(** ** Numeric parameters *)

Lemma filter_all {A} (p : A → bool) (l : list A) :
  (∀ x, x ∈ l → p x = true) → List.filter p l = l.
Proof.
  induction l as [|x l IH]; intros Hp; simpl; [done|].
  rewrite Hp by apply list_elem_of_here.
  f_equal. apply IH. intros y Hy. apply Hp. by apply list_elem_of_further.
Qed.

Lemma SFleb_negative x c :
  not_negative x → SFltb c float_zero = true → SFleb x c = false.
Proof.
  destruct x as [[]|[]| |[] mx ex], c as [[]|[]| |[] mc ec]; simpl; done.
Qed.

Lemma negative_truthy c :
  SFltb c float_zero = true → truthy_float (Some c) = Some c.
Proof. by destruct c as [[]|[]| |[] mc ec]. Qed.

(** C9, as the code has it.  No flag value is checked against a range:
    every run writes its two outputs, and a value out of range is used
    as it is.  On a table of non-negative lengths and counts a negative
    min-length keeps every row, and a negative cutoff removes every
    row. *)
Theorem out_of_range_values_are_used (a : Args.t) (rows : list Row.t)
    (seqs : gmap string string) (info : frame) (m : Z) (c : spec_float) :
  (∀ ir, ir ∈ info → 0 ≤ Row.length ir.2 ∧ 0 ≤ Row.ambig_count ir.2) →
  m < 0 →
  SFltb c float_zero = true →
  (∃ out_fa out_info, main a rows seqs = Written out_fa out_info) ∧
  min_length_filter (Some m) info = info ∧
  prop_ambig_filter (Some c) info = [].
Proof.
  intros Hrows Hm Hc. split; [|split].
  - unfold main. destruct (run a rows seqs) as [out_fa out_info]. eauto.
  - unfold min_length_filter, truthy_int.
    destruct (Z.eqb_spec m 0) as [->|_]; [lia|].
    as_row_predicate. rewrite getitem_map. apply filter_all.
    intros ir Hir. apply Z.leb_le. apply Hrows in Hir. lia.
  - apply elem_of_nil_inv. intros ir Hir.
    apply prop_ambig_filter_spec in Hir as [Hir Hle]; [|by apply negative_truthy].
    apply Hrows in Hir as [Hlen Hamb].
    rewrite SFleb_negative in Hle; [done| |done].
    apply SFdiv_not_negative; by apply float_of_int_not_negative.
Qed.

(** * Concrete runs *)

Lemma or_and_composition_witness :
  (0%nat, invalid_trusted_taxid)
    ∈ or_phase or_and_args (read_feather [invalid_trusted_taxid; valid_short])
  ∧ (1%nat, valid_short)
    ∉ and_phase or_and_args
        (or_phase or_and_args (read_feather [invalid_trusted_taxid; valid_short])).
Proof.
  apply (or_and_composition or_and_args
           (read_feather [invalid_trusted_taxid; valid_short])
           {["562"%string]} 5 (0%nat, invalid_trusted_taxid) (1%nat, valid_short)).
  - reflexivity.
  - reflexivity.
  - apply list_elem_of_In. simpl. auto.
  - reflexivity.
  - simpl. apply elem_of_singleton. reflexivity.
  - reflexivity.
  - simpl. lia.
Defined.

Lemma zero_length_excluded_witness :
  (0%nat, empty_record)
    ∉ prop_ambig_filter (Some float_one) (read_feather [empty_record; clean10]).
Proof.
  apply (zero_length_excluded float_one
           (read_feather [empty_record; clean10]) (0%nat, empty_record)).
  - reflexivity.
  - reflexivity.
  - simpl. lia.
  - left. simpl. lia.
Defined.

(** The null-species group is not capped at its first rows: it is
    removed whole.  And a cap of 0 keeps every row instead of none. *)
Lemma species_cap_drops_null_group :
  let info := map upcast_row (read_feather [no_species]) in
  let full := map upcast_row (read_feather abcd) in
  List.filter (in_group None) (species_cap_stage (Some 2) info)
    ≠ take 2 (List.filter (in_group None) info)
  ∧ List.filter (in_group (Some "1"%string)) (species_cap_stage (Some 0) full)
    ≠ take 0 (List.filter (in_group (Some "1"%string)) full).
Proof. split; vm_compute; discriminate. Qed.

Lemma species_cap_first_n_witness :
  let info := map upcast_row (read_feather (abcd ++ [no_species])) in
  let out := species_cap_stage (Some 2) info in
  out `sublist_of` info ∧
  List.filter (in_group None) out = [] ∧
  ∀ s : string,
    let group := List.filter (in_group (Some s)) in
    group out = take (Z.to_nat 2) (group info) ∧
    ((List.length (group info) ≤ Z.to_nat 2)%nat → group out = group info).
Proof.
  apply (proj1 species_cap_first_n 2
           (map upcast_row (read_feather (abcd ++ [no_species])))).
  lia.
Defined.

Lemma sequence_metadata_consistency_witness :
  let seqs : gmap string string := <["s0"%string := "ACGT"%string]> ∅ in
  match main (with_species_cap 5) [clean10; ambig10] seqs with
  | Written out_fa out_info =>
      (Some "s1"%string ∉ ncol NRow.seqname out_info)
      ∧ ("s1"%string ∉ map fst out_fa)
  | ConfigError _ => False
  end.
Proof.
  intros seqs.
  pose proof (sequence_metadata_consistency (with_species_cap 5)
                [clean10; ambig10] seqs) as H.
  destruct (main (with_species_cap 5) [clean10; ambig10] seqs); [done|].
  destruct H as (_ & _ & H). apply H. reflexivity.
Defined.

Lemma negative_min_length_accepted :
  let seqs : gmap string string :=
    <["s0"%string := "ACGT"%string]> (<["s1"%string := "ACGN"%string]> ∅) in
  offending_flag negative_min_length_args = Some "--min-length"%string
  ∧ main negative_min_length_args [clean10; ambig10] seqs
    = Written [("s0", "ACGT"); ("s1", "ACGN")]%string
              [(0%nat, upcast clean10); (1%nat, upcast ambig10)].
Proof. split; reflexivity. Qed.

Lemma out_of_range_values_are_used_witness :
  let info := read_feather [clean10; ambig10] in
  let seqs : gmap string string := <["s0"%string := "ACGT"%string]> ∅ in
  (∃ out_fa out_info,
     main negative_min_length_args [clean10; ambig10] seqs
       = Written out_fa out_info) ∧
  min_length_filter (Some (-5)) info = info ∧
  prop_ambig_filter (Some (SFopp float_one)) info = [].
Proof.
  intros info seqs.
  apply (out_of_range_values_are_used negative_min_length_args
           [clean10; ambig10] seqs info (-5) (SFopp float_one)).
  - intros ir Hir. apply list_elem_of_In in Hir. simpl in Hir.
    destruct Hir as [<-|[<-|[]]]; simpl; lia.
  - lia.
  - reflexivity.
Defined.

(** * Identifier files *)

Lemma lstrip_head s :
  match lstrip s with
  | String c _ => isspace c = false
  | EmptyString => True
  end.
Proof.
  induction s as [|c s IH]; simpl; [done|].
  destruct (isspace c) eqn:Hc; [exact IH | exact Hc].
Qed.

Lemma lstrip_clean c s : isspace c = false → lstrip (String c s) = String c s.
Proof. intros Hc. simpl. by rewrite Hc. Qed.

Lemma rstrip_head c s : isspace c = false → ∃ r, rstrip (String c s) = String c r.
Proof. intros Hc. simpl. destruct (rstrip s); rewrite ?Hc; eauto. Qed.

Lemma rstrip_idem s : rstrip (rstrip s) = rstrip s.
Proof.
  induction s as [|c s IH]; [done|]. simpl.
  destruct (rstrip s) as [|d r] eqn:Hr.
  - destruct (isspace c) eqn:Hc; [done|]. simpl. by rewrite Hc.
  - change (rstrip (String c (String d r))) with
      (match rstrip (String d r) with
       | EmptyString => if isspace c then EmptyString else String c EmptyString
       | String e r' => String c (String e r')
       end).
    by rewrite IH.
Qed.

Lemma strip_clean s : lstrip (strip s) = strip s ∧ rstrip (strip s) = strip s.
Proof.
  unfold strip. split; [|apply rstrip_idem].
  pose proof (lstrip_head s) as Hh. destruct (lstrip s) as [|c t]; [done|].
  destruct (rstrip_head c t Hh) as [r ->]. by apply lstrip_clean.
Qed.

Lemma strip_idem s : strip (strip s) = strip s.
Proof.
  destruct (strip_clean s) as [Hl Hr]. unfold strip at 1. by rewrite Hl.
Qed.

Lemma read_ids_spec (lines : list string) (x : string) :
  x ∈ read_ids lines ↔
  x ≠ EmptyString ∧ ∃ i, i ∈ lines ∧ startswith_hash i = false ∧ strip i = x.
Proof.
  unfold read_ids. rewrite elem_of_list_to_set, list_elem_of_In, filter_In.
  rewrite bool_decide_eq_true, in_map_iff. split.
  - intros [(i & Hs & Hi) Hx]. split; [done|]. exists i.
    apply filter_In in Hi as [Hi Hc]. apply negb_true_iff in Hc.
    by rewrite list_elem_of_In.
  - intros [Hx (i & Hi & Hc & Hs)]. split; [|done]. exists i. split; [done|].
    apply filter_In. rewrite Hc. by rewrite <- list_elem_of_In.
Qed.

(** X1.  What an identifier file contributes: an identifier is in the
    set exactly when it is not empty and is the stripped form of some
    line that does not start with [#]. *)
Theorem identifier_file_contents (lines : list string) (x : string) :
  x ∈ read_ids lines ↔
  x ≠ EmptyString ∧ ∃ i, i ∈ lines ∧ startswith_hash i = false ∧ strip i = x.
Proof. apply read_ids_spec. Qed.

(** X2.  Every identifier read from a file is non-empty and carries no
    white space at either end: stripping it on the left, on the right
    or on both sides gives it back. *)
Theorem identifiers_are_stripped (lines : list string) (x : string) :
  x ∈ read_ids lines →
  x ≠ EmptyString ∧ lstrip x = x ∧ rstrip x = x ∧ strip x = x.
Proof.
  intros Hx. apply read_ids_spec in Hx as [Hne (i & _ & _ & <-)].
  destruct (strip_clean i) as [Hl Hr]. by rewrite strip_idem.
Qed.

(** X3.  Only the set of lines of an identifier file matters: two files
    with the same lines, in any order and with any repetition, give
    the same identifiers, and a file read after another adds its
    identifiers to the other's. *)
Theorem identifier_file_order_irrelevant (lines1 lines2 : list string) :
  ((∀ i, i ∈ lines1 ↔ i ∈ lines2) → read_ids lines1 = read_ids lines2)
  ∧ read_ids (lines1 ++ lines2) = read_ids lines1 ∪ read_ids lines2.
Proof.
  split.
  - intros Hsame. apply set_eq. intros x. rewrite !read_ids_spec.
    split; intros [Hne (i & Hi & Hrest)]; (split; [done|]); exists i;
      (split; [by apply Hsame | done]).
  - apply set_eq. intros x. rewrite elem_of_union, !read_ids_spec. split.
    + intros [Hne (i & Hi & Hrest)]. apply elem_of_app in Hi as [Hi|Hi];
        [left | right]; eauto.
    + intros [[Hne (i & Hi & Hrest)]|[Hne (i & Hi & Hrest)]];
        (split; [done|]); exists i; rewrite elem_of_app; eauto.
Qed.

(** X4.  The comment test looks at the raw line: a file whose lines all
    start with [#] gives no identifier, while a line with white space
    before the [#] is not a comment and gives an identifier that
    starts with [#]. *)
Theorem indented_hash_is_not_a_comment (lines : list string)
    (c : Ascii.ascii) (rest : string) :
  ((∀ i, i ∈ lines → startswith_hash i = true) → read_ids lines = ∅)
  ∧ (isspace c = true →
     String c (String (Ascii.ascii_of_nat 35) rest) ∈ lines →
     ∃ r, String (Ascii.ascii_of_nat 35) r ∈ read_ids lines).
Proof.
  split.
  - intros Hall. apply set_eq. intros x. rewrite read_ids_spec. split.
    + intros [_ (i & Hi & Hc & _)]. apply Hall in Hi. congruence.
    + intros Hx. by apply not_elem_of_empty in Hx.
  - intros Hc Hin.
    assert (isspace (Ascii.ascii_of_nat 35) = false) as Hh by reflexivity.
    destruct (rstrip_head _ rest Hh) as [r Hr]. exists r.
    apply read_ids_spec. split; [done|].
    exists (String c (String (Ascii.ascii_of_nat 35) rest)). split; [done|]. split.
    + simpl. apply Nat.eqb_neq. intros Heq.
      assert (c = Ascii.ascii_of_nat 35) as ->.
      { rewrite <- (Ascii.ascii_nat_embedding c). by rewrite Heq. }
      by rewrite Hh in Hc.
    + unfold strip. cbn [lstrip]. rewrite Hc.
      change (lstrip (String (Ascii.ascii_of_nat 35) rest))
        with (String (Ascii.ascii_of_nat 35) rest).
      exact Hr.
Qed.

(** * OR options and AND options as row predicates *)

Lemma filter_filter {A} (p q : A → bool) (l : list A) :
  List.filter p (List.filter q l) = List.filter (λ x, q x && p x) l.
Proof.
  induction l as [|x l IH]; simpl; [done|].
  destruct (q x); simpl; [destruct (p x)|]; by rewrite IH.
Qed.

Lemma filter_true {A} (l : list A) : List.filter (λ _, true) l = l.
Proof. induction l as [|x l IH]; simpl; [done|]. by rewrite IH. Qed.

Lemma or_phase_filter a info :
  or_phase a info = List.filter (λ ir, or_pred a ir.2) info.
Proof.
  unfold or_phase, or_keep, or_pred.
  destruct (Args.trusted_taxids a) as [ids|], (Args.is_valid a);
    as_row_predicate; rewrite getitem_map; apply filter_ext; intros [i r]; simpl.
  - by destruct (bool_decide _), (Row.is_valid r).
  - by destruct (bool_decide _).
  - by destruct (Row.is_valid r).
  - done.
Qed.

Lemma min_length_filter_filter m info :
  min_length_filter m info =
    List.filter (λ ir, match truthy_int m with
                       | Some m => m <=? Row.length ir.2
                       | None => true
                       end) info.
Proof.
  unfold min_length_filter. destruct (truthy_int m).
  - as_row_predicate. apply getitem_map.
  - by rewrite filter_true.
Qed.

Lemma prop_ambig_filter_filter c info :
  prop_ambig_filter c info =
    List.filter (λ ir, match truthy_float c with
                       | Some c =>
                           SFleb (SFdiv prec emax (float_of_int (Row.ambig_count ir.2))
                                                  (float_of_int (Row.length ir.2))) c
                       | None => true
                       end) info.
Proof.
  unfold prop_ambig_filter. destruct (truthy_float c).
  - as_row_predicate. apply getitem_map.
  - by rewrite filter_true.
Qed.

Lemma is_type_filter_filter on info :
  is_type_filter on info = List.filter (λ ir, negb on || Row.is_type ir.2) info.
Proof.
  destruct on; simpl; [|by rewrite filter_true].
  as_row_predicate. apply getitem_map.
Qed.

Lemma is_species_filter_filter on info :
  is_species_filter on info
    = List.filter (λ ir, negb on || bool_decide (Row.species ir.2 ≠ None)) info.
Proof.
  destruct on; simpl; [|by rewrite filter_true].
  as_row_predicate. rewrite getitem_map. apply filter_ext.
  intros [i r]. simpl. by destruct (Row.species r).
Qed.

Lemma inliers_filter_filter on info :
  inliers_filter on info = List.filter (λ ir, negb on || negb (Row.is_out ir.2)) info.
Proof.
  destruct on; simpl; [|by rewrite filter_true].
  as_row_predicate. apply getitem_map.
Qed.

Lemma do_not_trust_filter_filter dnt info :
  do_not_trust_filter dnt info =
    List.filter (λ ir, match dnt with
                       | Some dnt => not_listed dnt ir.2
                       | None => true
                       end) info.
Proof.
  destruct dnt as [dnt|]; simpl; [|by rewrite filter_true].
  as_row_predicate. rewrite !getitem_map, !filter_filter.
  apply filter_ext. intros ir. unfold not_listed. by rewrite ?andb_assoc.
Qed.

Lemma and_phase_filter a info :
  and_phase a info = List.filter (λ ir, and_pred a ir.2) info.
Proof.
  unfold and_phase.
  rewrite do_not_trust_filter_filter, inliers_filter_filter,
    is_species_filter_filter, is_type_filter_filter, prop_ambig_filter_filter,
    min_length_filter_filter.
  rewrite !filter_filter.
  apply filter_ext. intros ir. unfold and_pred. by rewrite ?andb_assoc.
Qed.

Lemma or_pred_spec a r :
  or_pred a r = true ↔
  (Args.is_valid a = false ∨ Row.is_valid r = true
   ∨ ∃ ids, Args.trusted_taxids a = Some ids ∧ Row.tax_id r ∈ ids).
Proof.
  unfold or_pred. split.
  - intros H. destruct (Args.is_valid a); [|by left].
    destruct (Row.is_valid r); [by right; left|]. right. right.
    destruct (Args.trusted_taxids a) as [ids|]; [|done].
    exists ids. split; [done|]. simpl in H. rewrite !orb_false_r in H.
    by apply bool_decide_eq_true in H.
  - intros [H|[H|(ids & H1 & H2)]].
    + rewrite H. simpl. destruct (Args.trusted_taxids a); [|done].
      by rewrite orb_true_r.
    + rewrite H. destruct (Args.trusted_taxids a); by rewrite !orb_true_r.
    + rewrite H1. by rewrite (bool_decide_eq_true_2 _ H2).
Qed.

(** X5.  The OR options.  A row stays when [--is_valid] is off, or it
    is valid, or its tax_id is in the trusted-taxid set; so
    [--trusted-taxids] without [--is_valid] removes nothing. *)
Theorem or_options_semantics (a : Args.t) (info : frame) (ir : nat * Row.t) :
  (ir ∈ or_phase a info ↔
   ir ∈ info ∧
   (Args.is_valid a = false ∨ Row.is_valid ir.2 = true
    ∨ ∃ ids, Args.trusted_taxids a = Some ids ∧ Row.tax_id ir.2 ∈ ids))
  ∧ (Args.is_valid a = false → or_phase a info = info).
Proof.
  rewrite or_phase_filter. split.
  - by rewrite list_elem_of_In, filter_In, <- list_elem_of_In, or_pred_spec.
  - intros Hoff. apply filter_all. intros [i r] _. apply or_pred_spec. by left.
Qed.

(** X6.  The AND options amount to one filter: whatever the order of
    the six stages, a row stays exactly when it passes every test that
    is switched on, and the rows that stay keep their order. *)
Theorem and_options_are_one_filter (a : Args.t) (info : frame) :
  and_phase a info = List.filter (λ ir, and_pred a ir.2) info.
Proof. apply and_phase_filter. Qed.

(** X7.  The do-not-trust stage keeps a row exactly when none of its
    tax_id, accession, version and seqname is in the set. *)
Theorem do_not_trust_semantics (dnt : gset string) (info : frame)
    (ir : nat * Row.t) :
  ir ∈ do_not_trust_filter (Some dnt) info ↔
  ir ∈ info ∧ (Row.tax_id ir.2 ∉ dnt) ∧ (Row.accession ir.2 ∉ dnt)
  ∧ (Row.version ir.2 ∉ dnt) ∧ (Row.seqname ir.2 ∉ dnt).
Proof.
  rewrite do_not_trust_filter_filter, list_elem_of_In, filter_In, <- list_elem_of_In.
  unfold not_listed. rewrite !andb_true_iff, !negb_true_iff, !bool_decide_eq_false.
  tauto.
Qed.

(** X8.  A record named in the do-not-trust file is removed by the AND
    options whatever else holds of it: it is enough that one of its
    tax_id, accession, version or seqname is, up to surrounding white
    space, a non-empty line of the file that does not start with [#]. *)
Theorem listed_in_file_is_dropped (a : Args.t) (lines : list string)
    (info : frame) (ir : nat * Row.t) (i : string) :
  Args.do_not_trust a = Some (read_ids lines) →
  i ∈ lines → startswith_hash i = false → strip i ≠ EmptyString →
  strip i = Row.tax_id ir.2 ∨ strip i = Row.accession ir.2
  ∨ strip i = Row.version ir.2 ∨ strip i = Row.seqname ir.2 →
  ir ∉ and_phase a info.
Proof.
  intros Hdnt Hi Hc Hne Hfield Hin.
  assert (strip i ∈ read_ids lines) as Hid by (apply read_ids_spec; eauto).
  rewrite and_phase_filter in Hin.
  apply list_elem_of_In, filter_In in Hin as [_ Hp].
  unfold and_pred in Hp. rewrite Hdnt in Hp.
  apply andb_true_iff in Hp as [_ Hp]. unfold not_listed in Hp.
  rewrite !andb_true_iff, !negb_true_iff, !bool_decide_eq_false in Hp.
  destruct Hp as [[[H1 H2] H3] H4].
  destruct Hfield as [E|[E|[E|E]]]; rewrite E in Hid; tauto.
Qed.

(** * The filter stages as a whole *)

Lemma filter_stages_pred a info ir :
  ir ∈ filter_stages a info → or_pred a ir.2 = true ∧ and_pred a ir.2 = true.
Proof.
  intros Hin.
  assert (ir ∈ and_phase a (or_phase a info)) as H.
  { unfold filter_stages in Hin.
    eapply elem_of_sublist; [exact Hin | apply dedup_stage_sublist]. }
  rewrite and_phase_filter, or_phase_filter in H.
  apply list_elem_of_In, filter_In in H as [H Hand].
  by apply filter_In in H as [_ Hor].
Qed.

(** X9.  Running the filter stages (OR options, AND options, duplicate
    removal) on their own result removes nothing more. *)
Theorem filter_stages_idempotent (a : Args.t) (info : frame) :
  filter_stages a (filter_stages a info) = filter_stages a info.
Proof.
  set (out := filter_stages a info).
  assert (and_phase a (or_phase a out) = out) as Hsame.
  { rewrite and_phase_filter, or_phase_filter.
    rewrite (filter_all (λ ir, or_pred a ir.2) out)
      by (intros ir Hir; apply (filter_stages_pred a info ir Hir)).
    apply filter_all. intros ir Hir. apply (filter_stages_pred a info ir Hir). }
  unfold filter_stages at 1. rewrite Hsame. subst out. unfold filter_stages.
  destruct (Args.drop_duplicate_sequences a); simpl; [|done].
  apply (dedup_from_idem dup_key).
Qed.

(** X10.  The filter stages only remove rows of the loaded table: what
    is left is a selection of the loaded rows in their order, and its
    index labels are still distinct, which is what [DataFrame.isin]
    at line 131 requires of [info]. *)
Theorem filter_stages_select_rows (a : Args.t) (rows : list Row.t) :
  filter_stages a (read_feather rows) `sublist_of` read_feather rows
  ∧ NoDup (filter_stages a (read_feather rows)).*1
  ∧ (filter_stages a (read_feather rows)).*2 `sublist_of` rows.
Proof.
  split; [apply filter_stages_sublist|]. split; [apply info_labels|].
  etrans; [apply fmap_sublist, filter_stages_sublist|].
  unfold read_feather. by rewrite snd_zip by (by rewrite length_seq).
Qed.

(** * Duplicate removal: which rows stay *)

Section DedupRows.
Context {K : Type} `{EqDecision K} {A : Type} (key : A → K).

Lemma dedup_from_elem seen df x :
  x ∈ dedup_from key seen df → x ∈ df ∧ key x ∉ seen.
Proof.
  revert seen. induction df as [|y df IH]; intros seen; [by intros ?%elem_of_nil|].
  rewrite dedup_from_cons. case_bool_decide as Hy.
  - intros [Hx Hs]%IH. split; [by apply list_elem_of_further | done].
  - intros [->|[Hx Hs]%IH]%elem_of_cons.
    + split; [apply list_elem_of_here | done].
    + split; [by apply list_elem_of_further|].
      intros Hin. apply Hs. by apply list_elem_of_further.
Qed.

Lemma dedup_from_NoDup seen df : NoDup (key <$> dedup_from key seen df).
Proof.
  revert seen. induction df as [|y df IH]; intros seen; [apply NoDup_nil_2|].
  rewrite dedup_from_cons. case_bool_decide as Hy; [apply IH|].
  rewrite fmap_cons. apply NoDup_cons_2; [|apply IH].
  intros (x & Hk & Hx)%list_elem_of_fmap.
  apply dedup_from_elem in Hx as [_ Hs]. apply Hs. rewrite <- Hk.
  apply list_elem_of_here.
Qed.

Lemma dedup_from_cover seen df x :
  x ∈ df → key x ∈ seen ∨ ∃ y, y ∈ dedup_from key seen df ∧ key y = key x.
Proof.
  revert seen. induction df as [|y df IH]; intros seen; [by intros ?%elem_of_nil|].
  rewrite dedup_from_cons. intros [->|Hx]%elem_of_cons.
  - case_bool_decide as Hy; [by left|]. right. exists y.
    split; [apply list_elem_of_here | done].
  - case_bool_decide as Hy; [by apply IH|].
    destruct (IH (key y :: seen) Hx) as [[Hk|Hs]%elem_of_cons|(z & Hz & Hk)].
    + right. exists y. split; [apply list_elem_of_here | done].
    + by left.
    + right. exists z. split; [by apply list_elem_of_further | done].
Qed.

Lemma dedup_from_first seen pre x post :
  key x ∉ seen → (∀ y, y ∈ pre → key y ≠ key x) →
  x ∈ dedup_from key seen (pre ++ x :: post).
Proof.
  revert seen. induction pre as [|y pre IH]; intros seen Hs Hpre; simpl.
  - rewrite dedup_from_cons, bool_decide_eq_false_2 by done.
    apply list_elem_of_here.
  - assert (key y ≠ key x) as Hne by (apply Hpre, list_elem_of_here).
    assert (∀ z, z ∈ pre → key z ≠ key x) as Hpre'
      by (intros z Hz; by apply Hpre, list_elem_of_further).
    rewrite dedup_from_cons. case_bool_decide as Hy; [by apply IH|].
    apply list_elem_of_further, IH; [|done].
    intros [Hk|Hk]%elem_of_cons; [by apply Hne | by apply Hs].
Qed.
End DedupRows.

(** X11.  After [--drop-duplicate-sequences] no two rows share the pair
    (accession, seqhash), every pair of the table is still there, and
    the rows that stay are rows of the table. *)
Theorem drop_duplicates_keys (info : frame) :
  NoDup (dup_key <$> drop_duplicates info)
  ∧ (∀ ir, ir ∈ info →
       ∃ jr, jr ∈ drop_duplicates info ∧ dup_key jr = dup_key ir)
  ∧ drop_duplicates info `sublist_of` info.
Proof.
  split; [apply (dedup_from_NoDup dup_key [] info)|]. split.
  - intros ir Hir.
    destruct (dedup_from_cover dup_key [] info ir Hir) as [Hs|H]; [|done].
    by apply elem_of_nil in Hs.
  - apply getitem_sublist.
Qed.

(** X12.  Of the rows that share a pair (accession, seqhash) it is the
    first in table order that stays: a row with no row of the same
    pair before it is kept. *)
Theorem drop_duplicates_keeps_first (pre post : frame) (ir : nat * Row.t) :
  (∀ jr, jr ∈ pre → dup_key jr ≠ dup_key ir) →
  ir ∈ drop_duplicates (pre ++ ir :: post).
Proof.
  intros Hpre. apply (dedup_from_first dup_key [] pre ir post); [|done].
  apply not_elem_of_nil.
Qed.

(** * The trusted step without its blank rows *)

Section TrustedRows.
Variables (a : Args.t) (rows : list Row.t) (recs : gset string).
Hypothesis Htrusted : Args.trusted a = Some recs.

Local Abbreviation info0 := (read_feather rows).
Local Abbreviation info := (filter_stages a (read_feather rows)).
Local Abbreviation trusted := (select_trusted recs (read_feather rows)).

Lemma not_blank_upcast ir : not_blank (upcast_row ir) = true.
Proof. apply bool_decide_eq_true_2, upcast_not_blank. Qed.

Lemma not_blank_blank (i : nat) : not_blank (i, NRow.blank) = false.
Proof. by apply bool_decide_eq_false_2; intros ?. Qed.

Lemma appended_not_blank (t : frame) :
  (∀ ir, ir ∈ t → ir ∈ trusted) →
  List.filter not_blank (map (not_isin_row info) t)
    = map upcast_row (List.filter (λ ir, bool_decide (ir ∉ info)) t).
Proof.
  induction t as [|ir t IH]; intros Ht; [done|].
  assert (ir ∈ trusted) as Hir by apply Ht, list_elem_of_here.
  assert (∀ jr, jr ∈ t → jr ∈ trusted) as Ht'
    by (intros jr Hjr; by apply Ht, list_elem_of_further).
  cbn [List.filter map]. case_bool_decide as Hout.
  - rewrite (excluded_appended_whole a rows recs ir Hir Hout).
    rewrite not_blank_upcast. cbn [map]. by rewrite IH.
  - rewrite (survivor_appended_blank a rows recs ir Hir Hout).
    rewrite not_blank_blank. by apply IH.
Qed.

Lemma kept_not_blank (t : frame) :
  List.filter not_blank (map upcast_row t) = map upcast_row t.
Proof.
  apply filter_all. intros x Hx. rewrite map_fmap in Hx.
  apply list_elem_of_fmap in Hx as (ir & -> & _).
  apply not_blank_upcast.
Qed.

Lemma trusted_stage_not_blank :
  List.filter not_blank (trusted_stage a info0 info)
    = map upcast_row (info ++ List.filter (λ ir, bool_decide (ir ∉ info)) trusted).
Proof.
  rewrite (trusted_stage_eq a rows recs Htrusted), List.filter_app.
  rewrite kept_not_blank, appended_not_blank by done.
  by rewrite List.map_app.
Qed.
End TrustedRows.

(** X13.  With [--trusted] supplied, the table that leaves the trusted
    step is, its all-null rows left aside, the filtered table followed
    by the trusted rows that the filters had removed, in the order
    they have in the loaded table. *)
Theorem trusted_rows_in_loaded_order (a : Args.t) (rows : list Row.t)
    (recs : gset string) :
  Args.trusted a = Some recs →
  let info0 := read_feather rows in
  let info := filter_stages a info0 in
  let excluded :=
    List.filter (λ ir, bool_decide (ir ∉ info)) (select_trusted recs info0) in
  List.filter not_blank (trusted_stage a info0 info)
    = map upcast_row (info ++ excluded)
  ∧ excluded `sublist_of` info0.
Proof.
  intros Htrusted info0 info excluded. split.
  - by apply trusted_stage_not_blank.
  - subst excluded. etrans; [|apply getitem_sublist].
    rewrite <- getitem_map. apply getitem_sublist.
Qed.

(** * Species cap: edge values and repetition *)

Lemma getitem_nth_mask_nil seen (info : nframe) :
  getitem info (nth_mask [] seen (ncol NRow.species info)) = [].
Proof.
  revert seen. induction info as [|[i r] info IH]; intros seen; simpl; [done|].
  destruct (NRow.species r); simpl; apply IH.
Qed.

Lemma cap_from_cons n seen ir info :
  cap_from n seen (ir :: info) =
    match NRow.species ir.2 with
    | Some k =>
        if bool_decide (occurrences k seen < n)%nat
        then ir :: cap_from n (k :: seen) info
        else cap_from n (k :: seen) info
    | None => cap_from n seen info
    end.
Proof.
  unfold cap_from. simpl. destruct (NRow.species ir.2) as [k|]; simpl; [|done].
  case_bool_decide as H1; case_bool_decide as H2; try done;
    rewrite elem_of_seq in H1; lia.
Qed.

Lemma cap_from_idem (n : nat) (s s' : list string) (info : nframe) :
  (∀ k, Nat.min (occurrences k s) n = Nat.min (occurrences k s') n) →
  cap_from n s' (cap_from n s info) = cap_from n s info.
Proof.
  revert s s'. induction info as [|ir info IH]; intros s s' Hs; [done|].
  rewrite cap_from_cons. destruct (NRow.species ir.2) as [k|] eqn:Hk; [|by apply IH].
  assert (∀ j, Nat.min (occurrences j (k :: s)) n
               = Nat.min (occurrences j (k :: s')) n) as Hboth.
  { intros j. rewrite !occurrences_cons. pose proof (Hs j).
    case_bool_decide; lia. }
  case_bool_decide as Hlt.
  - rewrite cap_from_cons, Hk.
    rewrite bool_decide_eq_true_2 by (pose proof (Hs k); lia).
    f_equal. by apply IH.
  - apply IH. intros j. rewrite occurrences_cons. pose proof (Hs j).
    case_bool_decide; [subst j|]; lia.
Qed.

(** X14.  A negative [--species-cap] empties the table: [range] of a
    negative number is empty, so no rank is accepted. *)
Theorem negative_species_cap_empties (n : Z) (info : nframe) :
  n < 0 → species_cap_stage (Some n) info = [].
Proof.
  intros Hn. unfold species_cap_stage, truthy_int, range.
  destruct (Z.eqb_spec n 0) as [->|_]; [lia|].
  replace (Z.to_nat n) with 0%nat by lia. apply getitem_nth_mask_nil.
Qed.

(** X15.  Capping a table that is already capped with the same value
    removes nothing more. *)
Theorem species_cap_idempotent (cap : option Z) (info : nframe) :
  species_cap_stage cap (species_cap_stage cap info) = species_cap_stage cap info.
Proof.
  unfold species_cap_stage. destruct (truthy_int cap) as [n|]; [|done].
  apply (cap_from_idem (Z.to_nat n) [] [] info). done.
Qed.

(** * The two outputs *)

Lemma filter_sublist_mono {A} (p : A → bool) (l1 l2 : list A) :
  l1 `sublist_of` l2 → List.filter p l1 `sublist_of` List.filter p l2.
Proof.
  induction 1 as [|x l1 l2 _ IH|x l1 l2 _ IH]; simpl.
  - done.
  - destruct (p x); [by apply sublist_skip | done].
  - destruct (p x); [by apply sublist_cons | done].
Qed.

Lemma filter_sublist {A} (p : A → bool) (l : list A) : List.filter p l `sublist_of` l.
Proof. rewrite <- getitem_map. apply getitem_sublist. Qed.

Lemma species_cap_stage_sublist cap (info : nframe) :
  species_cap_stage cap info `sublist_of` info.
Proof. unfold species_cap_stage. case_match; [apply getitem_sublist | done]. Qed.

Lemma found_Some seqs s rec :
  found seqs s = Some rec → s = Some rec.1 ∧ seqs !! rec.1 = Some rec.2.
Proof.
  destruct s as [n|]; simpl; [|done].
  destruct (seqs !! n) as [q|] eqn:Hn; simpl; [|done]. by intros [= <-].
Qed.


Lemma main_spec a rows seqs :
  main a rows seqs =
    Written (omap (found seqs) (ncol NRow.seqname (pipeline a rows)))
            (List.filter (has_sequence seqs) (pipeline a rows)).
Proof. unfold main. by rewrite run_spec. Qed.

(** X16.  No all-null row reaches the metadata output: every row
    written is a row of the loaded table, cell for cell, and its
    seqname is a key of the sequence dictionary. *)
Theorem output_rows_are_loaded_rows (a : Args.t) (rows : list Row.t)
    (seqs : gmap string string) :
  match main a rows seqs with
  | Written _ out_info =>
      ∀ x, x ∈ out_info →
        x ∈ map upcast_row (read_feather rows)
        ∧ ∃ n, NRow.seqname x.2 = Some n ∧ is_Some (seqs !! n)
  | ConfigError _ => False
  end.
Proof.
  rewrite main_spec. intros x Hx.
  apply list_elem_of_In, filter_In in Hx as [Hx Hs].
  apply list_elem_of_In in Hx.
  unfold has_sequence in Hs. apply bool_decide_eq_true in Hs as [rec Hf].
  apply found_Some in Hf as [Hname Hseq]. split.
  - destruct (pipeline_rows a rows x Hx) as [Hl|Hb]; [done|].
    rewrite Hb in Hname. done.
  - exists rec.1. by rewrite Hseq.
Qed.


Lemma written_records seqs (info : nframe) :
  Forall2 (λ (rec : string * string) (ir : nat * NRow.t),
             NRow.seqname ir.2 = Some rec.1 ∧ seqs !! rec.1 = Some rec.2)
          (omap (found seqs) (ncol NRow.seqname info))
          (List.filter (has_sequence seqs) info).
Proof.
  induction info as [|[i r] info IH]; simpl; [apply Forall2_nil_2|].
  unfold has_sequence at 1. simpl.
  destruct (found seqs (NRow.seqname r)) as [rec|] eqn:Hf; simpl.
  - apply Forall2_cons_2; [|exact IH]. by apply found_Some.
  - exact IH.
Qed.

(** X18.  The sequence output follows the metadata output row by row:
    the i-th record written has the seqname of the i-th row of the
    final table and the sequence the dictionary holds for that name. *)
Theorem fasta_records_follow_rows (a : Args.t) (rows : list Row.t)
    (seqs : gmap string string) :
  match main a rows seqs with
  | Written out_fa out_info =>
      Forall2 (λ (rec : string * string) (ir : nat * NRow.t),
                 NRow.seqname ir.2 = Some rec.1 ∧ seqs !! rec.1 = Some rec.2)
              out_fa out_info
  | ConfigError _ => False
  end.
Proof. rewrite main_spec. apply written_records. Qed.

Lemma pipeline_no_flags rows : pipeline no_flags rows = map upcast_row (read_feather rows).
Proof.
  unfold pipeline, species_cap_stage, trusted_stage, filter_stages. simpl.
  unfold and_phase, or_phase, or_keep. simpl. by rewrite getitem_map, filter_true.
Qed.

(** X19.  A run without any flag filters nothing: the metadata output
    holds exactly the loaded rows whose seqname is a key of the
    sequence dictionary, in the loaded order. *)
Theorem no_flags_keeps_rows_with_sequence (rows : list Row.t)
    (seqs : gmap string string) :
  match main no_flags rows seqs with
  | Written _ out_info =>
      out_info
        = List.filter (has_sequence seqs) (map upcast_row (read_feather rows))
  | ConfigError _ => False
  end.
Proof. rewrite main_spec. by rewrite pipeline_no_flags. Qed.

(** * The sequence dictionary *)

Lemma seqs_of_snoc records rec :
  seqs_of (records ++ [rec]) = <[rec.1 := rec.2]> (seqs_of records).
Proof. unfold seqs_of. by rewrite fold_left_app. Qed.

(** X20.  When the sequence file has several records with one id, the
    dictionary holds the sequence of the last of them; an id is a key
    exactly when some record has it. *)
Theorem seqs_of_last_wins (records : list (string * string)) (n : string) :
  seqs_of records !! n
    = snd <$> last (List.filter (λ rec, bool_decide (rec.1 = n)) records)
  ∧ (is_Some (seqs_of records !! n) ↔ n ∈ records.*1).
Proof.
  induction records as [|rec records [IH1 IH2]] using rev_ind.
  - split; [done|]. split; [by intros [? ?] | by intros ?%elem_of_nil].
  - rewrite seqs_of_snoc, List.filter_app, fmap_app, elem_of_app. simpl.
    destruct (decide (rec.1 = n)) as [Heq|Hne].
    + rewrite (bool_decide_eq_true_2 _ Heq), last_snoc. subst n.
      rewrite lookup_insert_eq. split; [done|].
      split; [intros _; right; apply list_elem_of_here | eauto].
    + rewrite (bool_decide_eq_false_2 _ Hne), app_nil_r.
      rewrite lookup_insert_ne by done. split; [done|].
      rewrite IH2. split; [by left|].
      intros [H|H]; [done|]. apply list_elem_of_singleton in H. congruence.
Qed.

(** * Thresholds *)

Ltac compare_cases :=
  repeat match goal with
    | |- context [Z.compare ?x ?y] => destruct (Z.compare_spec x y)
    | H : context [Z.compare ?x ?y] |- _ => destruct (Z.compare_spec x y)
    | |- context [Pos.compare_cont Eq ?x ?y] =>
        change (Pos.compare_cont Eq x y) with (Pos.compare x y);
        destruct (Pos.compare_spec x y)
    | H : context [Pos.compare_cont Eq ?x ?y] |- _ =>
        change (Pos.compare_cont Eq x y) with (Pos.compare x y) in H;
        destruct (Pos.compare_spec x y)
    end.

Lemma SFleb_trans x y z : SFleb x y = true → SFleb y z = true → SFleb x z = true.
Proof.
  unfold SFleb, SFcompare.
  destruct x as [[]|[]| |[] mx ex], y as [[]|[]| |[] my ey],
    z as [[]|[]| |[] mz ez]; try done;
    intros Hxy Hyz; compare_cases; simpl in *; subst; try done; lia.
Qed.

Lemma filter_sublist_impl {A} (p q : A → bool) (l : list A) :
  (∀ x, p x = true → q x = true) → List.filter p l `sublist_of` List.filter q l.
Proof.
  intros Hpq. induction l as [|x l IH]; simpl; [done|].
  destruct (p x) eqn:Hp.
  - rewrite (Hpq x Hp). by apply sublist_skip.
  - destruct (q x); [by apply sublist_cons | done].
Qed.

(** X21.  Loosening a threshold never loses a row.  A row kept under a
    min-length m2 is kept under any smaller positive min-length m1; a
    row kept under a cutoff c1 that the script takes into account (not
    zero) is kept under any cutoff c2 >= c1. *)
Theorem thresholds_are_monotone (info : frame) (m1 m2 : Z) (c1 c2 : spec_float) :
  (0 < m1 ≤ m2 →
   min_length_filter (Some m2) info `sublist_of` min_length_filter (Some m1) info)
  ∧ (truthy_float (Some c1) = Some c1 → SFleb c1 c2 = true →
     prop_ambig_filter (Some c1) info `sublist_of` prop_ambig_filter (Some c2) info).
Proof.
  split.
  - intros Hm. rewrite !min_length_filter_filter. unfold truthy_int.
    destruct (Z.eqb_spec m1 0), (Z.eqb_spec m2 0); try lia.
    apply filter_sublist_impl. intros ir H. apply Z.leb_le in H. apply Z.leb_le. lia.
  - intros Hc1 Hle. rewrite !prop_ambig_filter_filter, Hc1.
    apply filter_sublist_impl. intros ir H.
    destruct (truthy_float (Some c2)) as [c|] eqn:Hc2; [|done].
    assert (c = c2) as ->.
    { unfold truthy_float in Hc2. by destruct (SFeqb c2 float_zero); simplify_eq. }
    by eapply SFleb_trans.
Qed.

(** * Converting a positive length *)

Lemma digits2_pos_size p : digits2_pos p = Pos.size p.
Proof. induction p as [p IH|p IH|]; simpl; by rewrite ?IH. Qed.

Lemma Zdigits2_log2 m : 0 < m → Zdigits2 m = Z.log2 m + 1.
Proof.
  destruct m as [|p|p]; try lia. intros _. simpl.
  destruct p as [p|p|]; simpl; rewrite ?digits2_pos_size; lia.
Qed.

Lemma shr_1_m mrs : 0 ≤ shr_m mrs → shr_m (shr_1 mrs) = Z.shiftr (shr_m mrs) 1.
Proof.
  destruct mrs as [m r s]. simpl. intros Hm. rewrite <- Z.div2_spec.
  destruct m as [|[p|p|]|p]; simpl; try done; lia.
Qed.

Lemma iter_shr_1_m n mrs :
  0 ≤ shr_m mrs → shr_m (SpecFloat.iter_pos shr_1 n mrs) = Z.shiftr (shr_m mrs) (Zpos n).
Proof.
  revert mrs. induction n as [n IH|n IH|]; intros mrs Hm; simpl.
  - assert (0 ≤ shr_m (shr_1 mrs)) as H1
      by (rewrite shr_1_m by done; by apply Z.shiftr_nonneg).
    assert (0 ≤ shr_m (SpecFloat.iter_pos shr_1 n (shr_1 mrs))) as H2
      by (rewrite IH by done; by apply Z.shiftr_nonneg).
    rewrite !IH, shr_1_m, !Z.shiftr_shiftr by (done || lia). f_equal. lia.
  - assert (0 ≤ shr_m (SpecFloat.iter_pos shr_1 n mrs)) as H2
      by (rewrite IH by done; by apply Z.shiftr_nonneg).
    rewrite !IH, !Z.shiftr_shiftr by (done || lia). f_equal. lia.
  - by apply shr_1_m.
Qed.

Lemma shr_record_of_loc_m m l : shr_m (shr_record_of_loc m l) = m.
Proof. by destruct l as [|[]]. Qed.

Lemma shr_fexp_positive m e l :
  0 < m → emin prec emax < Zdigits2 m + e →
  0 < shr_m (shr_fexp prec emax m e l).1
  ∧ Zdigits2 (shr_m (shr_fexp prec emax m e l).1) + (shr_fexp prec emax m e l).2
    = Zdigits2 m + e.
Proof.
  intros Hm He. unfold shr_fexp, shr.
  destruct (fexp prec emax (Zdigits2 m + e) - e) as [|n|n] eqn:Hn; simpl;
    rewrite ?shr_record_of_loc_m; try done.
  rewrite iter_shr_1_m by (rewrite shr_record_of_loc_m; lia).
  rewrite shr_record_of_loc_m.
  rewrite (Zdigits2_log2 m Hm) in Hn, He |- *.
  assert (Zpos n ≤ Z.log2 m) as Hle.
  { unfold fexp, emin, prec, emax in *. lia. }
  assert (0 < Z.shiftr m (Zpos n)) as Hpos.
  { pose proof (Z.shiftr_nonneg m (Zpos n)) as Hnn.
    pose proof (Z.shiftr_eq_0_iff m (Zpos n)) as Hz. lia. }
  split; [done|].
  rewrite Zdigits2_log2 by done. rewrite Z.log2_shiftr by done. lia.
Qed.

Lemma round_nearest_even_bounds m l :
  m ≤ round_nearest_even m l ≤ m + 1.
Proof. unfold round_nearest_even. destruct l as [|[]]; try lia. case (Z.even m); lia. Qed.

(** Rounding a positive mantissa above the smallest exponent gives a
    number or an infinity, never zero or NaN. *)
Lemma binary_round_aux_positive s m e l :
  0 < m → emin prec emax < Zdigits2 m + e →
  match binary_round_aux prec emax s m e l with
  | S754_finite s' _ _ | S754_infinity s' => s' = s
  | _ => False
  end.
Proof.
  intros Hm He. unfold binary_round_aux.
  destruct (shr_fexp_positive m e l Hm He) as [H1 H2].
  destruct (shr_fexp prec emax m e l) as [mrs' e'] eqn:E1. simpl in H1, H2.
  set (m1 := round_nearest_even (shr_m mrs') (loc_of_shr_record mrs')).
  pose proof (round_nearest_even_bounds (shr_m mrs') (loc_of_shr_record mrs')) as Hb.
  fold m1 in Hb.
  assert (0 < m1) as Hm1 by lia.
  assert (emin prec emax < Zdigits2 m1 + e') as He1.
  { rewrite Zdigits2_log2 in H2 |- * by done.
    pose proof (Z.log2_le_mono (shr_m mrs') m1). lia. }
  destruct (shr_fexp_positive m1 e' loc_Exact Hm1 He1) as [H3 _].
  destruct (shr_fexp prec emax m1 e' loc_Exact) as [mrs'' e''] eqn:E2. simpl in H3.
  destruct (shr_m mrs''); try lia. by case (Z.leb _ _).
Qed.

Lemma float_of_int_positive z :
  0 < z →
  match float_of_int z with
  | S754_finite false _ _ | S754_infinity false => True
  | _ => False
  end.
Proof.
  intros Hz. destruct z as [|p|p]; try lia.
  unfold float_of_int, binary_normalize, binary_round.
  destruct (shl_align p 0 _) as [mz ez] eqn:Hal.
  assert (emin prec emax < Zdigits2 (Zpos mz) + ez) as He.
  { unfold shl_align in Hal.
    assert (0 < Zdigits2 (Zpos mz)) as Hd by (simpl; lia).
    destruct (fexp prec emax (Zpos (digits2_pos p) + 0) - 0) as [|d|d] eqn:Hd';
      injection Hal as <- <-; unfold fexp, emin, prec, emax in *; simpl in *; lia. }
  pose proof (binary_round_aux_positive false (Zpos mz) ez loc_Exact
                ltac:(lia) He) as H.
  destruct (binary_round_aux _ _ _ _ _ _) as [|[]| |[] ? ?]; done.
Qed.

(** X22.  A record without ambiguous positions is never removed by the
    ambiguity filter: with a length above zero its proportion is +0,
    which is below every cutoff that is above zero. *)
Theorem unambiguous_rows_pass (c : spec_float) (info : frame) (ir : nat * Row.t) :
  SFltb float_zero c = true →
  ir ∈ info → Row.ambig_count ir.2 = 0 → 0 < Row.length ir.2 →
  ir ∈ prop_ambig_filter (Some c) info.
Proof.
  intros Hc Hin Hamb Hlen. rewrite prop_ambig_filter_filter.
  apply list_elem_of_In, filter_In. split; [by apply list_elem_of_In|].
  assert (truthy_float (Some c) = Some c) as ->
    by (by destruct c as [[]|[]| |[] mc ec]).
  rewrite Hamb. pose proof (float_of_int_positive _ Hlen) as Hf.
  change (float_of_int 0) with (S754_zero false).
  destruct (float_of_int (Row.length ir.2)) as [[]|[]| |[] ml el]; try done;
    simpl; by destruct c as [[]|[]| |[] mc ec].
Qed.

(** * The species cap and the blank rows *)

Lemma capped_rows_have_species n seen (info : nframe) x :
  x ∈ cap_from n seen info → NRow.species x.2 ≠ None.
Proof.
  intros Hx Hnone.
  assert (x ∈ List.filter (in_group None) (cap_from n seen info)) as Hin.
  { apply list_elem_of_In, filter_In. split; [by apply list_elem_of_In|].
    by apply bool_decide_eq_true_2. }
  unfold cap_from in Hin. rewrite nth_mask_null in Hin. by apply elem_of_nil in Hin.
Qed.

(** X23.  When a species cap is in force, the all-null rows of the
    trusted step do not leave the pipeline: they have no species, so
    the cap removes them, and every row that leaves the pipeline is a
    row of the loaded table. *)
Theorem capped_pipeline_has_no_blank_rows (a : Args.t) (rows : list Row.t)
    (n : Z) (x : nat * NRow.t) :
  truthy_int (Args.species_cap a) = Some n →
  x ∈ pipeline a rows →
  x ∈ map upcast_row (read_feather rows).
Proof.
  intros Hcap Hx.
  destruct (pipeline_rows a rows x Hx) as [Hl|Hb]; [done|]. exfalso.
  unfold pipeline, species_cap_stage in Hx. rewrite Hcap in Hx.
  apply (capped_rows_have_species (Z.to_nat n) []) in Hx.
  apply Hx. by rewrite Hb.
Qed.

(** * Concrete runs of the rest of the script *)

Lemma identifier_file_contents_witness : "s3"%string ∈ read_ids id_lines.
Proof.
  apply (proj2 (identifier_file_contents id_lines "s3")).
  split; [done|]. exists (" s3 " +:+ newline)%string.
  split; [|split; reflexivity].
  apply list_elem_of_In. simpl. auto.
Defined.

Lemma identifiers_are_stripped_witness :
  "562"%string ≠ EmptyString ∧ lstrip "562" = "562"%string
  ∧ rstrip "562" = "562"%string ∧ strip "562" = "562"%string.
Proof.
  apply (identifiers_are_stripped id_lines "562").
  apply (bool_decide_unpack ("562"%string ∈ read_ids id_lines)).
  vm_compute. exact I.
Defined.

Lemma identifier_file_order_irrelevant_witness :
  read_ids ["a"; "b"]%string = read_ids ["b"; "a"; "a"]%string.
Proof.
  apply (proj1 (identifier_file_order_irrelevant
                  ["a"; "b"]%string ["b"; "a"; "a"]%string)).
  intros i. rewrite !list_elem_of_In. simpl. tauto.
Defined.

Lemma indented_hash_is_not_a_comment_witness :
  ∃ r, String (Ascii.ascii_of_nat 35) r ∈ read_ids id_lines.
Proof.
  apply (proj2 (indented_hash_is_not_a_comment id_lines
                  (Ascii.ascii_of_nat 32) "x")).
  - reflexivity.
  - apply list_elem_of_In. simpl. auto 10.
Defined.

Lemma or_options_semantics_witness :
  or_phase (with_trusted {["s3"%string]})
           (read_feather [invalid_trusted_taxid; valid_short])
    = read_feather [invalid_trusted_taxid; valid_short].
Proof.
  apply (proj2 (or_options_semantics (with_trusted {["s3"%string]})
                  (read_feather [invalid_trusted_taxid; valid_short])
                  (0%nat, invalid_trusted_taxid))).
  reflexivity.
Defined.

Lemma do_not_trust_semantics_witness :
  (0%nat, clean10)
    ∈ do_not_trust_filter (Some {["s3"%string]}) (read_feather [clean10; valid_short]).
Proof.
  apply (proj2 (do_not_trust_semantics {["s3"%string]}
                  (read_feather [clean10; valid_short]) (0%nat, clean10))).
  split; [apply list_elem_of_In; simpl; auto|].
  repeat split; intros H; apply elem_of_singleton in H; discriminate H.
Defined.

Lemma listed_in_file_is_dropped_witness :
  (1%nat, valid_short)
    ∉ and_phase do_not_trust_args (read_feather [clean10; valid_short]).
Proof.
  apply (listed_in_file_is_dropped do_not_trust_args id_lines
           (read_feather [clean10; valid_short]) (1%nat, valid_short)
           (" s3 " +:+ newline)%string).
  - reflexivity.
  - apply list_elem_of_In. simpl. auto.
  - reflexivity.
  - discriminate.
  - right. left. reflexivity.
Defined.

Lemma drop_duplicates_keys_witness :
  ∃ jr, jr ∈ drop_duplicates (read_feather [clean10; clean10; ambig10])
        ∧ dup_key jr = dup_key (1%nat, clean10).
Proof.
  apply (proj1 (proj2 (drop_duplicates_keys
                         (read_feather [clean10; clean10; ambig10])))).
  apply list_elem_of_In. simpl. auto.
Defined.

Lemma drop_duplicates_keeps_first_witness :
  (1%nat, ambig10) ∈ drop_duplicates ([(0%nat, clean10)] ++ (1%nat, ambig10) :: [(2%nat, ambig10)]).
Proof.
  apply (drop_duplicates_keeps_first [(0%nat, clean10)] [(2%nat, ambig10)]
           (1%nat, ambig10)).
  intros jr Hjr. apply list_elem_of_In in Hjr. simpl in Hjr.
  destruct Hjr as [<-|[]]. discriminate.
Defined.

Lemma trusted_rows_in_loaded_order_witness :
  let info0 := read_feather [valid_short; invalid_trusted_taxid] in
  let info := filter_stages trusted_args info0 in
  let excluded :=
    List.filter (λ ir, bool_decide (ir ∉ info))
                (select_trusted {["s3"%string]} info0) in
  List.filter not_blank (trusted_stage trusted_args info0 info)
    = map upcast_row (info ++ excluded)
  ∧ excluded `sublist_of` info0.
Proof.
  apply (trusted_rows_in_loaded_order trusted_args
           [valid_short; invalid_trusted_taxid] {["s3"%string]}).
  reflexivity.
Defined.

Lemma negative_species_cap_empties_witness :
  species_cap_stage (Some (-1)) (map upcast_row (read_feather abcd)) = [].
Proof.
  apply (negative_species_cap_empties (-1) (map upcast_row (read_feather abcd))).
  lia.
Defined.

Lemma output_rows_are_loaded_rows_witness :
  let seqs : gmap string string := <["s0"%string := "ACGT"%string]> ∅ in
  match main no_flags [clean10; ambig10] seqs with
  | Written _ out_info =>
      (0%nat, upcast clean10) ∈ map upcast_row (read_feather [clean10; ambig10])
      ∧ ∃ n, NRow.seqname (upcast clean10) = Some n ∧ is_Some (seqs !! n)
  | ConfigError _ => False
  end.
Proof.
  intros seqs.
  pose proof (output_rows_are_loaded_rows no_flags [clean10; ambig10] seqs) as H.
  destruct (main no_flags [clean10; ambig10] seqs) as [|out_fa out_info] eqn:Hm;
    [done|].
  apply (H (0%nat, upcast clean10)).
  vm_compute in Hm. injection Hm as _ <-.
  apply list_elem_of_In. simpl. auto.
Defined.


Lemma seqs_of_last_wins_witness :
  is_Some (seqs_of [("s0", "ACGT"); ("s1", "AC"); ("s0", "GG")]%string
             !! "s0"%string).
Proof.
  apply (proj2 (proj2 (seqs_of_last_wins
           [("s0", "ACGT"); ("s1", "AC"); ("s0", "GG")]%string "s0"%string))).
  apply list_elem_of_In. simpl. auto.
Defined.

Lemma thresholds_are_monotone_witness :
  let info := read_feather [clean10; valid_short; invalid_trusted_taxid] in
  min_length_filter (Some 1000) info `sublist_of` min_length_filter (Some 5) info
  ∧ prop_ambig_filter (Some float_one) info
      `sublist_of` prop_ambig_filter (Some (S754_infinity false)) info.
Proof.
  intros info.
  pose proof (thresholds_are_monotone info 5 1000 float_one (S754_infinity false))
    as [H1 H2].
  split.
  - apply H1. lia.
  - apply H2; reflexivity.
Defined.

Lemma unambiguous_rows_pass_witness :
  (0%nat, clean10) ∈ prop_ambig_filter (Some float_one) (read_feather [clean10; ambig10]).
Proof.
  apply (unambiguous_rows_pass float_one (read_feather [clean10; ambig10])
           (0%nat, clean10)).
  - reflexivity.
  - apply list_elem_of_In. simpl. auto.
  - reflexivity.
  - simpl. lia.
Defined.

Lemma capped_pipeline_has_no_blank_rows_witness :
  (0%nat, upcast invalid_trusted_taxid)
    ∈ map upcast_row (read_feather [invalid_trusted_taxid; valid_short]).
Proof.
  apply (capped_pipeline_has_no_blank_rows trusted_capped_args
           [invalid_trusted_taxid; valid_short] 3).
  - reflexivity.
  - apply list_elem_of_In. vm_compute. auto.
Defined.

(** * Trusted records in the final table *)

Lemma occurs_sublist x (l1 l2 : nframe) :
  l1 `sublist_of` l2 → (occurs x l1 ≤ occurs x l2)%nat.
Proof. intros Hsub. unfold occurs. by apply sublist_length, filter_sublist_mono. Qed.

Lemma occurs_elem x (l : nframe) : x ∈ l → (1 ≤ occurs x l)%nat.
Proof.
  intros (l1 & l2 & ->)%list_elem_of_split. rewrite occurs_app.
  unfold occurs at 2. simpl. rewrite bool_decide_eq_true_2 by done. simpl. lia.
Qed.

Lemma occurs_once_elem x (l : nframe) : occurs x l = 1%nat → x ∈ l.
Proof.
  intros H1. destruct (decide (x ∈ l)) as [|Hout]; [done|].
  rewrite (occurs_absent _ _ Hout) in H1. done.
Qed.

Lemma has_sequence_upcast seqs ir :
  is_Some (seqs !! Row.seqname ir.2) → has_sequence seqs (upcast_row ir) = true.
Proof.
  intros [q Hq]. apply bool_decide_eq_true_2. unfold found. simpl.
  rewrite Hq. by eexists.
Qed.

Section TrustedFinal.
Variables (a : Args.t) (rows : list Row.t) (recs : gset string).
Hypothesis Htrusted : Args.trusted a = Some recs.

Local Abbreviation info0 := (read_feather rows).
Local Abbreviation info := (filter_stages a (read_feather rows)).
Local Abbreviation trusted := (select_trusted recs (read_feather rows)).

(** The appended block holds no row of the filtered table. *)
Lemma appended_not_kept y :
  y ∈ map (not_isin_row info) trusted → y ∉ map upcast_row info.
Proof.
  rewrite !map_fmap. intros (jr & -> & Hjr)%list_elem_of_fmap Hkept.
  apply list_elem_of_fmap in Hkept as (kr & Heq & Hkr).
  destruct (decide (jr ∈ info)) as [Hin|Hout].
  - rewrite (survivor_appended_blank a rows recs jr Hjr Hin) in Heq.
    apply (f_equal snd) in Heq. simpl in Heq. symmetry in Heq.
    by apply upcast_not_blank in Heq.
  - rewrite (excluded_appended_whole a rows recs jr Hjr Hout) in Heq.
    apply upcast_row_inj in Heq as ->. done.
Qed.

Lemma pipeline_after_trusted_stage :
  pipeline a rows `sublist_of` trusted_stage a info0 info.
Proof. unfold pipeline. apply species_cap_stage_sublist. Qed.

Lemma final_at_most_once seqs ir :
  ir ∈ trusted →
  (occurs (upcast_row ir) (List.filter (has_sequence seqs) (pipeline a rows)) ≤ 1)%nat.
Proof.
  intros Htr. rewrite <- (trusted_once a rows recs Htrusted ir Htr).
  apply occurs_sublist. etrans; [apply filter_sublist|].
  apply pipeline_after_trusted_stage.
Qed.

Lemma final_excluded_at_bottom seqs ir :
  ir ∉ info →
  upcast_row ir ∈ List.filter (has_sequence seqs) (pipeline a rows) →
  ∃ pre post,
    List.filter (has_sequence seqs) (pipeline a rows) = pre ++ upcast_row ir :: post
    ∧ ∀ y, y ∈ post → y ∉ map upcast_row info.
Proof.
  intros Hout Hx.
  pose proof pipeline_after_trusted_stage as Hsub.
  rewrite (trusted_stage_eq a rows recs Htrusted) in Hsub.
  apply sublist_app_r in Hsub as (c1 & c2 & Hc & H1 & H2).
  rewrite Hc, List.filter_app in Hx |- *.
  apply elem_of_app in Hx as [Hx|Hx].
  - exfalso. apply Hout.
    assert (upcast_row ir ∈ map upcast_row info) as Hk.
    { eapply elem_of_sublist; [|exact H1].
      eapply elem_of_sublist; [exact Hx | apply filter_sublist]. }
    rewrite map_fmap in Hk. apply list_elem_of_fmap in Hk as (kr & Heq & Hkr).
    by apply upcast_row_inj in Heq as ->.
  - apply list_elem_of_split in Hx as (p & q & Hq).
    exists (List.filter (has_sequence seqs) c1 ++ p), q.
    split; [by rewrite Hq, <- app_assoc|].
    intros y Hy. apply appended_not_kept.
    eapply elem_of_sublist; [|exact H2].
    eapply elem_of_sublist; [|apply (filter_sublist (has_sequence seqs))].
    rewrite Hq. apply elem_of_app. right. by apply list_elem_of_further.
Qed.
End TrustedFinal.

(** C2, as the code has it.  In a run with [--trusted], a row of the
    loaded table that matches the list by version, accession or
    seqname is never in the final table twice, whether the filters had
    kept it or not.  When its sequence is in the dictionary and the
    species cap does not remove it (no cap is in force, or the row is
    in the table that leaves the pipeline), it is in the final table
    exactly once; if the filters had removed it, every row of the
    filtered table that is in the final table stands before it. *)
Theorem trusted_reinsertion (a : Args.t) (rows : list Row.t)
    (seqs : gmap string string) (recs : gset string) (ir : nat * Row.t) :
  Args.trusted a = Some recs →
  ir ∈ read_feather rows →
  Row.version ir.2 ∈ recs ∨ Row.accession ir.2 ∈ recs ∨ Row.seqname ir.2 ∈ recs →
  match main a rows seqs with
  | Written _ out_info =>
      (occurs (upcast_row ir) out_info ≤ 1)%nat
      ∧ (is_Some (seqs !! Row.seqname ir.2) →
         truthy_int (Args.species_cap a) = None
         ∨ upcast_row ir ∈ pipeline a rows →
         occurs (upcast_row ir) out_info = 1%nat
         ∧ (ir ∉ filter_stages a (read_feather rows) →
            ∃ pre post,
              out_info = pre ++ upcast_row ir :: post
              ∧ ∀ y, y ∈ post →
                  y ∉ map upcast_row (filter_stages a (read_feather rows))))
  | ConfigError _ => False
  end.
Proof.
  intros Htrusted Hin Hmatch. rewrite main_spec.
  assert (ir ∈ select_trusted recs (read_feather rows)) as Htr
    by (by apply select_trusted_spec).
  pose proof (final_at_most_once a rows recs Htrusted seqs ir Htr) as Hmost.
  split; [done|]. intros Hseq Hcap.
  assert (upcast_row ir ∈ pipeline a rows) as Hpipe.
  { destruct Hcap as [Hnone|Hp]; [|done].
    unfold pipeline, species_cap_stage. rewrite Hnone.
    apply occurs_once_elem. by apply (trusted_once a rows recs). }
  assert (upcast_row ir ∈ List.filter (has_sequence seqs) (pipeline a rows)) as Hx.
  { apply list_elem_of_In, filter_In. split; [by apply list_elem_of_In|].
    by apply has_sequence_upcast. }
  split.
  - pose proof (occurs_elem _ _ Hx). lia.
  - intros Hout. by apply (final_excluded_at_bottom a rows recs).
Qed.

(** Two runs where the re-inserted record is not in the final table:
    under [--species-cap 1] the cap, which already has s2 for the
    species, removes s3 again; without a cap, s3 has no sequence in
    the dictionary and its row is dropped. *)
Lemma trusted_row_lost_after_reinsertion :
  let rows := [invalid_trusted_taxid; same_species_short] in
  let both : gmap string string :=
    <["s2"%string := "ACGT"%string]> (<["s3"%string := "ACG"%string]> ∅) in
  let only_s2 : gmap string string := <["s2"%string := "ACGT"%string]> ∅ in
  (1%nat, same_species_short)
    ∈ select_trusted {["s3"%string]} (read_feather rows)
  ∧ ((1%nat, same_species_short)
       ∉ filter_stages capped_trusted_args (read_feather rows))
  ∧ main capped_trusted_args rows both
    = Written [("s2", "ACGT")]%string [(0%nat, upcast invalid_trusted_taxid)]
  ∧ main trusted_args rows only_s2
    = Written [("s2", "ACGT")]%string [(0%nat, upcast invalid_trusted_taxid)].
Proof.
  intros rows both only_s2.
  split; [apply list_elem_of_In; vm_compute; auto|].
  split; [|split; reflexivity].
  intros H. apply list_elem_of_In in H. vm_compute in H.
  destruct H as [H|[]]. discriminate H.
Qed.

Lemma trusted_reinsertion_witness :
  let rows := [valid_short; invalid_trusted_taxid] in
  let seqs : gmap string string :=
    <["s2"%string := "ACGT"%string]> (<["s3"%string := "ACG"%string]> ∅) in
  let ir := (0%nat, valid_short) in
  match main trusted_args rows seqs with
  | Written _ out_info =>
      out_info = [(1%nat, upcast invalid_trusted_taxid); (0%nat, upcast valid_short)]
      ∧ occurs (upcast_row ir) out_info = 1%nat
      ∧ ∃ pre post,
          out_info = pre ++ upcast_row ir :: post
          ∧ ∀ y, y ∈ post →
              y ∉ map upcast_row (filter_stages trusted_args (read_feather rows))
  | ConfigError _ => False
  end.
Proof.
  intros rows seqs ir.
  pose proof (trusted_reinsertion trusted_args rows seqs {["s3"%string]} ir) as H.
  destruct (main trusted_args rows seqs) as [|out_fa out_info] eqn:Hm.
  - apply H.
    + reflexivity.
    + apply list_elem_of_In. simpl. auto.
    + right. right. simpl. apply elem_of_singleton. reflexivity.
  - split; [vm_compute in Hm; by injection Hm as _ <-|].
    destruct H as [_ H].
    + reflexivity.
    + apply list_elem_of_In. simpl. auto.
    + right. right. simpl. apply elem_of_singleton. reflexivity.
    + destruct H as [H1 H2].
      * vm_compute. eauto.
      * left. reflexivity.
      * split; [exact H1|]. apply H2.
        intros Hin. apply list_elem_of_In in Hin. vm_compute in Hin.
        destruct Hin as [Hin|[]]. discriminate Hin.
Defined.

(** * The cutoff 0.0 and a record of length 0 *)

(** C5.  At [--prop-ambig-cutoff 0.0] a record of length 0 is kept and
    written: 0.0 is false for [if args.prop_ambig_cutoff:], so the
    division and the comparison of lines 102-104 are not made.  Had
    they been made, 0/0 would be NaN and NaN <= 0.0 false. *)
Theorem cutoff_zero_keeps_zero_length :
  let info := read_feather [empty_record] in
  let seqs : gmap string string := <["s4"%string := ""%string]> ∅ in
  le_scalar (truediv (col Row.ambig_count info) (col Row.length info)) float_zero
    = [false]
  ∧ prop_ambig_filter (Some float_zero) info = info
  ∧ main cutoff_zero_args [empty_record] seqs
    = Written [("s4", "")]%string [(0%nat, upcast empty_record)].
Proof. repeat split; reflexivity. Qed.
